(** * snakegame/main.c: the game-state update engine

    A shallow embedding of [src/snakegame/main.c]: the [Snake] structure,
    [get_new_direction], [update_snake], [check_collision], [extend_snake],
    the snake initialisation and the body of the game loop of [main].

    Conventions of the embedding.
    - A C [int] is a [Z] between [INT_MIN] and [INT_MAX]; signed overflow is
      undefined behaviour in C and is an explicit [Undefined SignedOverflow]
      outcome here.
    - The heap arrays [snake->x] and [snake->y] are lists; the list's length
      is the number of [int] cells allocated.  An access outside of the
      allocation is [Undefined OutOfBounds].
    - Code that works through a [Snake *] lives in a state-and-error monad
      over the structure, so that what a function leaves untouched is a
      theorem and not a convention.
    - ncurses calls draw ([mvprintw], [refresh], [clear]) or wait ([usleep],
      [sleep]) and do not touch the game state: what is kept of them is the
      evaluation of their arguments, which reads the snake.  The values read
      from the terminal and the clock ([getch], [time], [getmaxyx]) are
      explicit inputs. *)

From Stdlib Require Import ZArith Lia Bool String.
From stdpp Require Import base list.

Open Scope Z_scope.

(** ** Machine integers *)

Definition INT_MIN : Z := -2147483648.
Definition INT_MAX : Z := 2147483647.

Definition in_int (n : Z) : Prop := INT_MIN <= n <= INT_MAX.
Definition in_intb (n : Z) : bool := (INT_MIN <=? n) && (n <=? INT_MAX).

(** ** Outcomes of a C computation *)

Inductive ub : Type :=
| SignedOverflow
| OutOfBounds.

Inductive outcome (A : Type) : Type :=
| Ok (a : A)
| Undefined (u : ub).

Arguments Ok {A} a.
Arguments Undefined {A} u.

(** ** Data model *)

(* typedef enum { DIR_UP, DIR_DOWN, DIR_LEFT, DIR_RIGHT } Direction; *)
Inductive Direction : Type :=
| DIR_UP
| DIR_DOWN
| DIR_LEFT
| DIR_RIGHT.

Definition INITIAL_SNAKE_LENGTH : Z := 5.
Definition EXTEND_INTERVAL : Z := 5.

(* typedef struct { int *x; int *y; int length; } Snake; *)
Record Snake : Type := mkSnake {
  x : list Z;
  y : list Z;
  length : Z
}.

(** ** The monad of code running on a [Snake *] *)

Definition M (A : Type) : Type := Snake -> outcome (A * Snake).

#[export] Instance snake_ret : MRet M :=
  fun A (a : A) s => Ok (a, s).

#[export] Instance snake_bind : MBind M :=
  fun A B (k : A -> M B) (m : M A) s =>
    match m s with
    | Ok (a, s') => k a s'
    | Undefined u => Undefined u
    end.

#[export] Instance snake_throw : MThrow ub M :=
  fun A (u : ub) _ => Undefined u.

(** *** Integer arithmetic with the overflow check *)

Definition checked (n : Z) : M Z :=
  if in_intb n then mret n else mthrow SignedOverflow.

Definition int_add (a b : Z) : M Z := checked (a + b).
Definition int_sub (a b : Z) : M Z := checked (a - b).

(** *** Accesses through the pointer *)

Definition get_length : M Z := fun s => Ok (length s, s).

Definition set_length (n : Z) : M unit :=
  fun s => Ok (tt, mkSnake (x s) (y s) n).

Definition in_bounds (l : list Z) (i : Z) : bool :=
  (0 <=? i) && (i <? Z.of_nat (List.length l)).

(* snake->x[i] as an rvalue *)
Definition load_x (i : Z) : M Z :=
  fun s =>
    if in_bounds (x s) i
    then match x s !! Z.to_nat i with
         | Some v => Ok (v, s)
         | None => Undefined OutOfBounds
         end
    else Undefined OutOfBounds.

Definition load_y (i : Z) : M Z :=
  fun s =>
    if in_bounds (y s) i
    then match y s !! Z.to_nat i with
         | Some v => Ok (v, s)
         | None => Undefined OutOfBounds
         end
    else Undefined OutOfBounds.

(* snake->x[i] = v *)
Definition store_x (i v : Z) : M unit :=
  fun s =>
    if in_bounds (x s) i
    then Ok (tt, mkSnake (<[Z.to_nat i := v]> (x s)) (y s) (length s))
    else Undefined OutOfBounds.

Definition store_y (i v : Z) : M unit :=
  fun s =>
    if in_bounds (y s) i
    then Ok (tt, mkSnake (x s) (<[Z.to_nat i := v]> (y s)) (length s))
    else Undefined OutOfBounds.

(** ** [update_snake] *)

(* for (int i = n; i > 0; i--) body(i); the body does not assign i *)
Fixpoint for_down (n : nat) (body : Z -> M unit) : M unit :=
  match n with
  | O => mret tt
  | S n' => body (Z.of_nat n);; for_down n' body
  end.

(* snake->x[i] = snake->x[i - 1]; snake->y[i] = snake->y[i - 1];
   i > 0 here, so that i - 1 cannot overflow *)
Definition shift_segment (i : Z) : M unit :=
  vx ← load_x (i - 1);
  store_x i vx;;
  vy ← load_y (i - 1);
  store_y i vy.

Definition update_snake (direction : Direction) : M unit :=
  len ← get_length;
  start ← int_sub len 1;
  for_down (Z.to_nat start) shift_segment;;
  match direction with
  | DIR_UP => v ← load_y 0; v' ← int_sub v 1; store_y 0 v'
  | DIR_DOWN => v ← load_y 0; v' ← int_add v 1; store_y 0 v'
  | DIR_LEFT => v ← load_x 0; v' ← int_sub v 1; store_x 0 v'
  | DIR_RIGHT => v ← load_x 0; v' ← int_add v 1; store_x 0 v'
  end.

(** ** [check_collision] *)

(* snake->x[0] == snake->x[i] && snake->y[0] == snake->y[i];
   the right operand of && is evaluated only when the left one holds *)
Definition head_hits (i : Z) : M bool :=
  x0 ← load_x 0;
  xi ← load_x i;
  if x0 =? xi
  then y0 ← load_y 0; yi ← load_y i; mret (y0 =? yi)
  else mret false.

(* for (int i = lo; i < snake->length; i++) { if (...) return true; }
   return false;
   [n] counts the iterations left, snake->length - i: the body changes
   neither i nor the length, and i + 1 <= snake->length cannot overflow *)
Fixpoint scan_body (n : nat) (i : Z) : M bool :=
  match n with
  | O => mret false
  | S n' => hit ← head_hits i;
      if (hit : bool) then mret true else scan_body n' (i + 1)
  end.

Definition check_collision : M bool :=
  len ← get_length;
  scan_body (Z.to_nat (len - 1)) 1.

(** ** [get_new_direction] *)

(** The key codes of <ncurses.h>.  They are [case] labels of one [switch],
    which C requires to be distinct; [ERR] is what [getch] returns in
    no-delay mode when no key is waiting, and it is not a key code. *)
Class Curses : Type := {
  KEY_UP : Z;
  KEY_DOWN : Z;
  KEY_LEFT : Z;
  KEY_RIGHT : Z;
  ERR : Z;
  codes_distinct : NoDup [ERR; KEY_UP; KEY_DOWN; KEY_LEFT; KEY_RIGHT]
}.

Section Game.

Context `{curses : Curses}.

(** What a freshly allocated [int] cell holds: C leaves it indeterminate. *)
Variable indeterminate : Z.

(* int ch = getch(); switch (ch) { ... }: [ch] is the value read *)
Definition get_new_direction (current_direction : Direction) (ch : Z)
  : Direction :=
  if ch =? KEY_UP then DIR_UP
  else if ch =? KEY_DOWN then DIR_DOWN
  else if ch =? KEY_LEFT then DIR_LEFT
  else if ch =? KEY_RIGHT then DIR_RIGHT
  else current_direction.

(** ** [extend_snake] *)

(** [malloc] and [realloc] of [n] cells of type [int].  The source does not
    test their result; the allocation is taken to succeed for [n >= 0].  For
    a negative [n] the byte count converted to [size_t] is out of reach, the
    result is the null pointer and every access through it is out of
    bounds: the empty list. *)
Definition malloc_ints (n : Z) : list Z :=
  replicate (Z.to_nat n) indeterminate.

Definition realloc_ints (l : list Z) (n : Z) : list Z :=
  take (Z.to_nat n) l ++ replicate (Z.to_nat n - List.length l) indeterminate.

Definition realloc_x (n : Z) : M unit :=
  fun s => Ok (tt, mkSnake (realloc_ints (x s) n) (y s) (length s)).

Definition realloc_y (n : Z) : M unit :=
  fun s => Ok (tt, mkSnake (x s) (realloc_ints (y s) n) (length s)).

Definition extend_snake : M unit :=
  (* snake->x = realloc(snake->x, (snake->length + 1) * sizeof(int)); *)
  len ← get_length; n ← int_add len 1; realloc_x n;;
  len ← get_length; n ← int_add len 1; realloc_y n;;
  (* snake->x[snake->length] = snake->x[snake->length - 1]; *)
  len ← get_length; last ← int_sub len 1; v ← load_x last;
  len ← get_length; store_x len v;;
  len ← get_length; last ← int_sub len 1; v ← load_y last;
  len ← get_length; store_y len v;;
  (* snake->length++; *)
  len ← get_length; len' ← int_add len 1; set_length len'.

(** ** [main]: initialisation of the snake (lines 236-243) *)

Definition malloc_x (n : Z) : M unit :=
  fun s => Ok (tt, mkSnake (malloc_ints n) (y s) (length s)).

Definition malloc_y (n : Z) : M unit :=
  fun s => Ok (tt, mkSnake (x s) (malloc_ints n) (length s)).

(* for (int i = lo; i < hi; i++) body(i); [n] counts the iterations left *)
Fixpoint for_up (n : nat) (i : Z) (body : Z -> M unit) : M unit :=
  match n with
  | O => mret tt
  | S n' => body i;; for_up n' (i + 1) body
  end.

(* snake.x[i] = (max_x / 2) + i; snake.y[i] = max_y / 2;
   the division of C truncates towards zero *)
Definition place_segment (max_x max_y : Z) (i : Z) : M unit :=
  vx ← int_add (max_x ÷ 2) i;
  store_x i vx;;
  store_y i (max_y ÷ 2).

Definition init_snake (max_x max_y : Z) : M unit :=
  set_length INITIAL_SNAKE_LENGTH;;
  len ← get_length; malloc_x len;;
  len ← get_length; malloc_y len;;
  len ← get_length;
  for_up (Z.to_nat len) 0 (place_segment max_x max_y).

(** ** [main]: wraparound of the head (lines 263-273) *)

Definition wrap_around (max_x max_y : Z) : M unit :=
  x0 ← load_x 0;
  (if x0 <=? 0
   then v ← int_sub max_x 2; store_x 0 v
   else x0 ← load_x 0; right ← int_sub max_x 1;
        if x0 >=? right then store_x 0 1 else mret tt);;
  y0 ← load_y 0;
  (if y0 <=? 0
   then v ← int_sub max_y 2; store_y 0 v
   else y0 ← load_y 0; bottom ← int_sub max_y 1;
        if y0 >=? bottom then store_y 0 1 else mret tt).

(** ** [main]: the game loop (lines 245-304) *)

(** The locals of [main] that the loop reads and writes. *)
Record Game : Type := mkGame {
  snake : Snake;
  current_direction : Direction;
  game_over : bool;
  last_extend_time : Z
}.

(** What one iteration reads from outside: the key of the [getch] at the
    top of the loop, the clock, and the key of the [getch] inside
    [get_new_direction].  Without a waiting key [getch] gives [ERR]. *)
Record Input : Type := mkInput {
  quit_key : Z;
  current_time : Z;
  direction_key : Z
}.

Inductive flow : Type :=
| Continue (g : Game)
| Break (g : Game).

Definition game_of (f : flow) : Game :=
  match f with Continue g | Break g => g end.

(* 'q' *)
Definition char_q : Z := 113.

(* mvprintw(snake.y[i], snake.x[i], glyph): the two cells are read, the
   glyph goes to the screen *)
Definition print_segment (i : Z) : M unit :=
  row ← load_y i;
  col ← load_x i;
  mret tt.

(* for (int i = 0; i < snake.length; i++) mvprintw(...): the loops that
   clear and draw the snake *)
Definition print_snake : M unit :=
  len ← get_length;
  for_up (Z.to_nat len) 0 print_segment.

(* draw_border(max_x, max_y): of its two loops only the arithmetic on the
   arguments remains, max_y - 1 in the first and max_x - 1 in the second *)
Definition draw_border (max_x max_y : Z) : M unit :=
  for_up (Z.to_nat max_x) 0 (fun _ => int_sub max_y 1;; mret tt);;
  for_up (Z.to_nat max_y) 0 (fun _ => int_sub max_x 1;; mret tt).

(** The growth step; [time_t] values are seconds of the wall clock and
    their difference is taken in [Z]. *)
Definition growth (now last : Z) : M Z :=
  if now - last >=? EXTEND_INTERVAL
  then extend_snake;; mret now
  else mret last.

Definition loop_body (max_x max_y : Z) (g : Game) (inp : Input)
  : outcome flow :=
  if quit_key inp =? char_q then Ok (Break g)
  else
    match (print_snake;;
           update_snake (current_direction g);;
           wrap_around max_x max_y;;
           check_collision) (snake g) with
    | Undefined u => Undefined u
    | Ok (true, s1) =>
        Ok (Break (mkGame s1 (current_direction g) true (last_extend_time g)))
    | Ok (false, s1) =>
        match (print_snake;;
               draw_border max_x max_y;;
               growth (current_time inp) (last_extend_time g)) s1 with
        | Undefined u => Undefined u
        | Ok (last, s2) =>
            Ok (Continue
                  (mkGame s2
                     (get_new_direction (current_direction g)
                        (direction_key inp))
                     false last))
        end
    end.

(** The state at the loop's entry.  [uninit] is the [Snake snake;] that
    [main] declares without a value, [start_time] the first [time(NULL)]. *)
Definition game_start (max_x max_y : Z) (uninit : Snake) (start_time : Z)
  : outcome Game :=
  match init_snake max_x max_y uninit with
  | Undefined u => Undefined u
  | Ok (_, s) => Ok (mkGame s DIR_LEFT false start_time)
  end.

(** [while (!game_over) { ... }] on the inputs of successive iterations;
    the run stops at a [break] or when the inputs are used up. *)
Fixpoint run (max_x max_y : Z) (inputs : list Input) (g : Game)
  : outcome Game :=
  match inputs with
  | [] => Ok g
  | inp :: rest =>
      if game_over g then Ok g
      else match loop_body max_x max_y g inp with
           | Undefined u => Undefined u
           | Ok (Break g') => Ok g'
           | Ok (Continue g') => run max_x max_y rest g'
           end
  end.

(** [main], from the terminal's size to the state in which the loop is
    left: [getmaxyx] gives [max_x] and [max_y] once, before the loop. *)
Definition main (max_x max_y : Z) (uninit : Snake) (start_time : Z)
    (inputs : list Input) : outcome Game :=
  match game_start max_x max_y uninit start_time with
  | Undefined u => Undefined u
  | Ok g => run max_x max_y inputs g
  end.

End Game.

Definition ncurses : Curses.
Proof.
  refine {| KEY_UP := 259; KEY_DOWN := 258; KEY_LEFT := 260; KEY_RIGHT := 261;
            ERR := -1 |}.
  repeat constructor; rewrite ?elem_of_cons, ?elem_of_nil; intuition discriminate.
Defined.

(** ** Vocabulary of the statements *)

(** The coordinate of segment [i], when both of its cells are allocated. *)
Definition segment (s : Snake) (i : Z) : option (Z * Z) :=
  if 0 <=? i
  then match x s !! Z.to_nat i, y s !! Z.to_nat i with
       | Some a, Some b => Some (a, b)
       | _, _ => None
       end
  else None.

(** A [Snake] the functions may be called on: [length] is an [int] and both
    arrays have at least [length] cells. *)
Definition well_formed (s : Snake) : Prop :=
  in_int (length s) /\
  length s <= Z.of_nat (List.length (x s)) /\
  length s <= Z.of_nat (List.length (y s)).

(** One unit applied to a coordinate. *)
Definition displace (d : Direction) (p : Z * Z) : Z * Z :=
  match d with
  | DIR_UP => (p.1, p.2 - 1)
  | DIR_DOWN => (p.1, p.2 + 1)
  | DIR_LEFT => (p.1 - 1, p.2)
  | DIR_RIGHT => (p.1 + 1, p.2)
  end.

(** The coordinate that [d] changes stays an [int]. *)
Definition can_move (d : Direction) (p : Z * Z) : Prop :=
  match d with
  | DIR_UP | DIR_DOWN => in_int (displace d p).2
  | DIR_LEFT | DIR_RIGHT => in_int (displace d p).1
  end.

(** After [n] iterations cells [1..n] hold what cells [0..n-1] held before
    the loop, and every other cell is as it was. *)
Definition shifted (n : nat) (old new : list Z) : Prop :=
  List.length new = List.length old /\
  forall j : nat,
    new !! j = if decide (1 <= j <= n)%nat then old !! (j - 1)%nat else old !! j.

(** What a computation leaves untouched. *)
Definition keeps_length {A} (m : M A) : Prop :=
  forall s a s', m s = Ok (a, s') -> length s' = length s.

Definition read_only {A} (m : M A) : Prop :=
  forall s a s', m s = Ok (a, s') -> s' = s.

Definition grows_by_one {A} (m : M A) : Prop :=
  forall s a s', m s = Ok (a, s') -> length s' = length s + 1.

(** Segment [i] lies on the head's cell. *)
Definition hits (s : Snake) (i : Z) : Prop :=
  exists p, segment s 0 = Some p /\ segment s i = Some p.

(** No two of the snake's [length] segments share a cell. *)
Definition pairwise_distinct (s : Snake) : Prop :=
  forall i j, 0 <= i < j -> j < length s -> segment s i <> segment s j.

(** The rule of the specification for one coordinate against its screen
    dimension. *)
Definition wrap_coordinate (limit v : Z) : Z :=
  if v <=? 0 then limit - 2
  else if v >=? limit - 1 then 1
  else v.

(** A screen dimension: an [int] from which 2 can be subtracted. *)
Definition dimension (limit : Z) : Prop :=
  in_int limit /\ in_int (limit - 2).

(** Free columns on either side of the body on a screen [max_x] wide, and
    what it is for the body to sit centered in that width: the two margins
    differ by one column at most. *)
Definition leftmost (l : list Z) : Z := foldr Z.min (default 0 (head l)) l.
Definition rightmost (l : list Z) : Z := foldr Z.max (default 0 (head l)) l.

Definition centered_in_width (max_x : Z) (s : Snake) : Prop :=
  Z.abs (leftmost (x s) - (max_x - 1 - rightmost (x s))) <= 1.

(** Reversing the direction of travel. *)
Definition opposite (d : Direction) : Direction :=
  match d with
  | DIR_UP => DIR_DOWN
  | DIR_DOWN => DIR_UP
  | DIR_LEFT => DIR_RIGHT
  | DIR_RIGHT => DIR_LEFT
  end.

(** [k] units applied to a coordinate. *)
Definition displace_by (d : Direction) (k : Z) (p : Z * Z) : Z * Z :=
  match d with
  | DIR_UP => (p.1, p.2 - k)
  | DIR_DOWN => (p.1, p.2 + k)
  | DIR_LEFT => (p.1 - k, p.2)
  | DIR_RIGHT => (p.1 + k, p.2)
  end.

(** A snake stretched out behind its head [h] while travelling in direction
    [d]: segment [i] is [i] cells from the head, opposite to the travel. *)
Definition straight_line (s : Snake) (d : Direction) (h : Z * Z) : Prop :=
  forall i, 0 <= i < length s ->
    segment s i = Some (displace_by (opposite d) i h).

(** The arrow key of a direction. *)
Definition key_of `{Curses} (d : Direction) : Z :=
  match d with
  | DIR_UP => KEY_UP
  | DIR_DOWN => KEY_DOWN
  | DIR_LEFT => KEY_LEFT
  | DIR_RIGHT => KEY_RIGHT
  end.

(** A snake on which an iteration can run: well formed, with a head whose
    coordinates are away from the ends of [int]. *)
Definition sound (s : Snake) : Prop :=
  well_formed s /\ 1 <= length s /\
  exists h, segment s 0 = Some h /\
            INT_MIN < h.1 < INT_MAX /\ INT_MIN < h.2 < INT_MAX.

(** The states of the loop: the one at its entry and those that an
    iteration leaves, by going round again or by a [break]. *)
Inductive reachable `{Curses} (indeterminate max_x max_y : Z) : flow -> Prop :=
| reach_start uninit start_time g :
    game_start indeterminate max_x max_y uninit start_time = Ok g ->
    reachable indeterminate max_x max_y (Continue g)
| reach_iteration g inp f :
    reachable indeterminate max_x max_y (Continue g) ->
    loop_body indeterminate max_x max_y g inp = Ok f ->
    reachable indeterminate max_x max_y f.

(** *** States used in the worked instances *)

(** The state at the loop's entry on an 80 by 24 terminal, and the one
    after five seconds of travelling left with no key pressed. *)
Definition start_80_24 : Game :=
  mkGame (mkSnake [40; 41; 42; 43; 44] [12; 12; 12; 12; 12] 5) DIR_LEFT false 1000.

Definition grown_80_24 : Game :=
  mkGame (mkSnake [39; 40; 41; 42; 43; 43] [12; 12; 12; 12; 12; 12] 6)
    DIR_LEFT false 1005.

(** A snake of three cells travelling left, when the right arrow has just
    been read. *)
Definition reversing : Game :=
  mkGame (mkSnake [10; 11; 12] [5; 5; 5] 3) DIR_RIGHT false 1000.

(** *** Vocabulary of the further properties *)

(** Both arrays hold exactly [length] cells. *)
Definition tight (s : Snake) : Prop :=
  Z.of_nat (List.length (x s)) = length s /\
  Z.of_nat (List.length (y s)) = length s.

(** What [update_snake] makes of an array of which the first [n] cells are
    in use, [v] being the head's new value: the old cells move one index
    along, the last of the [n] is dropped, the cells from [n] on stay. *)
Definition advanced (n : nat) (v : Z) (l : list Z) : list Z :=
  v :: take (n - 1) l ++ drop n l.

(** A cell strictly inside the border of a [max_x] by [max_y] window, and a
    snake all of whose [length] segments are. *)
Definition inside (max_x max_y : Z) (p : Z * Z) : Prop :=
  1 <= p.1 <= max_x - 2 /\ 1 <= p.2 <= max_y - 2.

Definition body_inside (max_x max_y : Z) (s : Snake) : Prop :=
  forall i, 0 <= i < length s ->
    exists p, segment s i = Some p /\ inside max_x max_y p.

(** Two inputs with the same clock and the same keys at
    [get_new_direction], whose keys at the quit test are 'q' at the same
    iterations. *)
Definition same_but_quit_keys (inp inp' : Input) : Prop :=
  current_time inp = current_time inp' /\
  direction_key inp = direction_key inp' /\
  (quit_key inp = char_q <-> quit_key inp' = char_q).

(** *** What is printed

    The calls of [mvprintw] that [draw_border], [show_splash_screen] and the
    end of [main] make, each with its row, its column and its text. *)

Record Print : Type := mkPrint {
  print_row : Z;
  print_col : Z;
  print_text : string
}.

(* for (int i = lo; i < hi; i++) { mvprintw(...); mvprintw(...); }, with the
   calls of all iterations in order *)
Fixpoint for_up_calls (n : nat) (i : Z) (body : Z -> M (list Print))
  : M (list Print) :=
  match n with
  | O => mret []
  | S n' =>
      calls ← body i;
      rest ← for_up_calls n' (i + 1) body;
      mret (calls ++ rest)
  end.

(* mvprintw(0, i, "#"); mvprintw(max_y - 1, i, "#"); *)
Definition border_rows (max_y : Z) (i : Z) : M (list Print) :=
  bottom ← int_sub max_y 1;
  mret [mkPrint 0 i "#"; mkPrint bottom i "#"].

(* mvprintw(i, 0, "#"); mvprintw(i, max_x - 1, "#"); *)
Definition border_columns (max_x : Z) (i : Z) : M (list Print) :=
  right ← int_sub max_x 1;
  mret [mkPrint i 0 "#"; mkPrint i right "#"].

(* void draw_border(int max_x, int max_y), as the calls it makes *)
Definition draw_border_calls (max_x max_y : Z) : M (list Print) :=
  rows ← for_up_calls (Z.to_nat max_x) 0 (border_rows max_y);
  columns ← for_up_calls (Z.to_nat max_y) 0 (border_columns max_x);
  mret (rows ++ columns).

(* void show_splash_screen(int max_x, int max_y):
   mvprintw(max_y / 3, (max_x - 11 ) / 2, "Snake Game!"); *)
Definition show_splash_screen (max_x max_y : Z) : M Print :=
  width ← int_sub max_x 11;
  mret (mkPrint (max_y ÷ 3) (width ÷ 2) "Snake Game!").

(* main, lines 306-311:
   if (game_over) { mvprintw(max_y / 2, (max_x - 10) / 2, "GAME OVER!"); ... } *)
Definition game_over_message (max_x max_y : Z) (g : Game) : M (option Print) :=
  if game_over g
  then width ← int_sub max_x 10;
       mret (Some (mkPrint (max_y ÷ 2) (width ÷ 2) "GAME OVER!"))
  else mret None.

(** The free columns on the left and on the right of a text printed on a
    row of [max_x] columns. *)
Definition left_margin (p : Print) : Z := print_col p.
Definition right_margin (max_x : Z) (p : Print) : Z :=
  max_x - (print_col p + Z.of_nat (String.length (print_text p))).

(** The cells of the border of a [max_x] by [max_y] window. *)
Definition on_border (max_x max_y : Z) (r k : Z) : Prop :=
  0 <= r < max_y /\ 0 <= k < max_x /\
  (r = 0 \/ r = max_y - 1 \/ k = 0 \/ k = max_x - 1).

(** ** Reasoning about the monad *)

Lemma in_intb_spec n : in_intb n = true <-> in_int n.
Proof. unfold in_intb, in_int. rewrite andb_true_iff. lia. Qed.

Lemma in_bounds_spec l i :
  in_bounds l i = true <-> 0 <= i < Z.of_nat (List.length l).
Proof. unfold in_bounds. rewrite andb_true_iff. lia. Qed.

Section Monad.

Context {A B : Type}.

Lemma run_bind (m : M A) (k : A -> M B) s a s1 :
  m s = Ok (a, s1) -> (m ≫= k) s = k a s1.
Proof. intros H. unfold mbind, snake_bind. now rewrite H. Qed.

Lemma run_bind_undefined (m : M A) (k : A -> M B) s u :
  m s = Undefined u -> (m ≫= k) s = Undefined u.
Proof. intros H. unfold mbind, snake_bind. now rewrite H. Qed.

Lemma bind_Ok_inv (m : M A) (k : A -> M B) s r :
  (m ≫= k) s = Ok r -> exists a s1, m s = Ok (a, s1) /\ k a s1 = Ok r.
Proof.
  unfold mbind, snake_bind. destruct (m s) as [[a s1]|u]; [eauto | discriminate].
Qed.

End Monad.

(** One step of symbolic execution: run the first action of a sequence with
    the fact that [tac] proves, then simplify the structure's fields. *)
Ltac run_by tac :=
  erewrite run_bind by tac; cbn [x y length].

Lemma run_checked n s : in_int n -> checked n s = Ok (n, s).
Proof. intros H%in_intb_spec. unfold checked. now rewrite H. Qed.

Lemma run_checked_overflow n s :
  ~ in_int n -> checked n s = Undefined SignedOverflow.
Proof.
  intros H. unfold checked. destruct (in_intb n) eqn:E; [|reflexivity].
  now apply in_intb_spec in E.
Qed.

Lemma checked_Ok_inv n s r :
  checked n s = Ok r -> r = (n, s) /\ in_int n.
Proof.
  unfold checked. destruct (in_intb n) eqn:E; [|discriminate].
  apply in_intb_spec in E. intros [= <-]. auto.
Qed.

Lemma run_get_length s : get_length s = Ok (length s, s).
Proof. reflexivity. Qed.

Lemma run_load_x i v s :
  0 <= i -> x s !! Z.to_nat i = Some v -> load_x i s = Ok (v, s).
Proof.
  intros Hi Hv. unfold load_x.
  assert (in_bounds (x s) i = true) as ->.
  { apply in_bounds_spec. apply lookup_lt_Some in Hv. lia. }
  now rewrite Hv.
Qed.

Lemma run_load_y i v s :
  0 <= i -> y s !! Z.to_nat i = Some v -> load_y i s = Ok (v, s).
Proof.
  intros Hi Hv. unfold load_y.
  assert (in_bounds (y s) i = true) as ->.
  { apply in_bounds_spec. apply lookup_lt_Some in Hv. lia. }
  now rewrite Hv.
Qed.

Lemma run_store_x i v s :
  0 <= i < Z.of_nat (List.length (x s)) ->
  store_x i v s = Ok (tt, mkSnake (<[Z.to_nat i := v]> (x s)) (y s) (length s)).
Proof. intros H%in_bounds_spec. unfold store_x. now rewrite H. Qed.

Lemma run_store_y i v s :
  0 <= i < Z.of_nat (List.length (y s)) ->
  store_y i v s = Ok (tt, mkSnake (x s) (<[Z.to_nat i := v]> (y s)) (length s)).
Proof. intros H%in_bounds_spec. unfold store_y. now rewrite H. Qed.

Lemma load_x_Ok_inv i s r :
  load_x i s = Ok r -> r.2 = s /\ 0 <= i /\ x s !! Z.to_nat i = Some r.1.
Proof.
  unfold load_x. destruct (in_bounds (x s) i) eqn:E; [|discriminate].
  apply in_bounds_spec in E.
  destruct (x s !! Z.to_nat i); [|discriminate].
  intros [= <-]. simpl. split; [reflexivity | split; [lia | reflexivity]].
Qed.

Lemma load_y_Ok_inv i s r :
  load_y i s = Ok r -> r.2 = s /\ 0 <= i /\ y s !! Z.to_nat i = Some r.1.
Proof.
  unfold load_y. destruct (in_bounds (y s) i) eqn:E; [|discriminate].
  apply in_bounds_spec in E.
  destruct (y s !! Z.to_nat i); [|discriminate].
  intros [= <-]. simpl. split; [reflexivity | split; [lia | reflexivity]].
Qed.

Lemma store_x_Ok_inv i v s r :
  store_x i v s = Ok r ->
  r.2 = mkSnake (<[Z.to_nat i := v]> (x s)) (y s) (length s) /\
  0 <= i < Z.of_nat (List.length (x s)).
Proof.
  unfold store_x. destruct (in_bounds (x s) i) eqn:E; [|discriminate].
  apply in_bounds_spec in E. intros [= <-]. auto.
Qed.

Lemma store_y_Ok_inv i v s r :
  store_y i v s = Ok r ->
  r.2 = mkSnake (x s) (<[Z.to_nat i := v]> (y s)) (length s) /\
  0 <= i < Z.of_nat (List.length (y s)).
Proof.
  unfold store_y. destruct (in_bounds (y s) i) eqn:E; [|discriminate].
  apply in_bounds_spec in E. intros [= <-]. auto.
Qed.

(** ** The shift loop of [update_snake] *)

Lemma run_shift_segment i vx vy s :
  1 <= i ->
  i < Z.of_nat (List.length (x s)) ->
  i < Z.of_nat (List.length (y s)) ->
  x s !! Z.to_nat (i - 1) = Some vx ->
  y s !! Z.to_nat (i - 1) = Some vy ->
  shift_segment i s =
    Ok (tt, mkSnake (<[Z.to_nat i := vx]> (x s)) (<[Z.to_nat i := vy]> (y s))
              (length s)).
Proof.
  intros Hi Hx Hy Hvx Hvy. unfold shift_segment.
  rewrite (run_bind _ _ _ _ _ (run_load_x (i - 1) vx s ltac:(lia) Hvx)).
  erewrite run_bind by (apply run_store_x; lia).
  erewrite run_bind by (apply run_load_y; [lia | exact Hvy]).
  rewrite run_store_y by (simpl; lia). reflexivity.
Qed.

Lemma run_shift_loop n : forall s,
  Z.of_nat n < Z.of_nat (List.length (x s)) ->
  Z.of_nat n < Z.of_nat (List.length (y s)) ->
  exists s',
    for_down n shift_segment s = Ok (tt, s') /\
    length s' = length s /\
    shifted n (x s) (x s') /\ shifted n (y s) (y s').
Proof.
  induction n as [|n IH]; intros s Hx Hy.
  - exists s. repeat split; try reflexivity;
      intros j; case_decide; [lia | reflexivity | lia | reflexivity].
  - destruct (lookup_lt_is_Some_2 (x s) n) as [vx Hvx]; [lia|].
    destruct (lookup_lt_is_Some_2 (y s) n) as [vy Hvy]; [lia|].
    set (s1 := mkSnake (<[S n := vx]> (x s)) (<[S n := vy]> (y s)) (length s)).
    destruct (IH s1) as (s' & Hrun & Hlen & [Lx Sx] & [Ly Sy]).
    { simpl. rewrite length_insert. lia. }
    { simpl. rewrite length_insert. lia. }
    exists s'. split.
    + change (for_down (S n) shift_segment)
        with (shift_segment (Z.of_nat (S n));; for_down n shift_segment).
      erewrite run_bind; [exact Hrun|].
      rewrite (run_shift_segment _ vx vy) by
        (try lia; replace (Z.to_nat (Z.of_nat (S n) - 1)) with n by lia; assumption).
      rewrite Nat2Z.id. reflexivity.
    + split; [exact Hlen|]. simpl in *. rewrite length_insert in Lx, Ly.
      split; (split; [assumption|]); intros j.
      * rewrite Sx. repeat case_decide; try lia.
        -- apply list_lookup_insert_ne. lia.
        -- replace j with (S n) by lia. simpl. rewrite Nat.sub_0_r, Hvx.
           apply list_lookup_insert_eq. lia.
        -- apply list_lookup_insert_ne. lia.
      * rewrite Sy. repeat case_decide; try lia.
        -- apply list_lookup_insert_ne. lia.
        -- replace j with (S n) by lia. simpl. rewrite Nat.sub_0_r, Hvy.
           apply list_lookup_insert_eq. lia.
        -- apply list_lookup_insert_ne. lia.
Qed.

Lemma segment_Some s i a b :
  segment s i = Some (a, b) <->
  0 <= i /\ x s !! Z.to_nat i = Some a /\ y s !! Z.to_nat i = Some b.
Proof.
  unfold segment. destruct (Z.leb_spec 0 i) as [Hi|Hi].
  - destruct (x s !! Z.to_nat i), (y s !! Z.to_nat i); split;
      try (intros [= -> ->]; auto); try intros (_ & [= ->] & [= ->]);
      try reflexivity; try discriminate; intros (_ & ? & ?); discriminate.
  - split; [discriminate | lia].
Qed.

Lemma segment_allocated s i :
  well_formed s -> 0 <= i < length s -> exists p, segment s i = Some p.
Proof.
  intros (_ & Hx & Hy) Hi.
  destruct (lookup_lt_is_Some_2 (x s) (Z.to_nat i)) as [a Ha]; [lia|].
  destruct (lookup_lt_is_Some_2 (y s) (Z.to_nat i)) as [b Hb]; [lia|].
  exists (a, b). apply segment_Some. split; [lia | auto].
Qed.

Lemma run_update_snake (s : Snake) (d : Direction) (h : Z * Z) :
  well_formed s -> 1 <= length s -> segment s 0 = Some h -> can_move d h ->
  exists s',
    update_snake d s = Ok (tt, s') /\
    (length s' = length s /\
     List.length (x s') = List.length (x s) /\
     List.length (y s') = List.length (y s)) /\
    (forall i, 1 <= i <= length s - 1 ->
       exists p, segment s (i - 1) = Some p /\ segment s' i = Some p) /\
    segment s' 0 = Some (displace d h).
Proof.
  intros Hwf Hlen Hhead Hmove.
  pose proof Hwf as (Hint & Hx & Hy). destruct h as [hx hy].
  apply segment_Some in Hhead as (_ & Hhx & Hhy). simpl in Hhx, Hhy.
  destruct (run_shift_loop (Z.to_nat (length s - 1)) s)
    as (s1 & Hloop & Hlen1 & [Lx Sx] & [Ly Sy]); [lia | lia |].
  assert (Hx0 : x s1 !! 0%nat = Some hx).
  { rewrite Sx. case_decide; [lia | assumption]. }
  assert (Hy0 : y s1 !! 0%nat = Some hy).
  { rewrite Sy. case_decide; [lia | assumption]. }
  assert (Hbody : forall s',
    length s' = length s ->
    (forall j : nat, (1 <= j)%nat -> x s' !! j = x s1 !! j) ->
    (forall j : nat, (1 <= j)%nat -> y s' !! j = y s1 !! j) ->
    forall i, 1 <= i <= length s - 1 ->
      exists p, segment s (i - 1) = Some p /\ segment s' i = Some p).
  { intros s' Hl Fx Fy i Hi.
    destruct (segment_allocated s (i - 1) Hwf) as [[a b] Hp]; [lia|].
    exists (a, b). split; [assumption|].
    apply segment_Some in Hp as (_ & Ha & Hb). apply segment_Some.
    split; [lia|]. rewrite Fx, Fy, Sx, Sy by lia.
    repeat case_decide; try lia.
    replace (Z.to_nat i - 1)%nat with (Z.to_nat (i - 1)) by lia. auto. }
  assert (Hstart : forall k : unit -> M unit,
    (len ← get_length; start ← int_sub len 1;
     for_down (Z.to_nat start) shift_segment;; k tt) s = k tt s1).
  { intros k. erewrite run_bind by apply run_get_length.
    erewrite run_bind by (apply run_checked; unfold in_int, INT_MIN in *; lia).
    erewrite run_bind by exact Hloop. reflexivity. }
  unfold update_snake.
  destruct d; simpl in Hmove;
    rewrite (Hstart (fun _ => _));
    [ erewrite run_bind by (apply (run_load_y 0); [lia | exact Hy0])
    | erewrite run_bind by (apply (run_load_y 0); [lia | exact Hy0])
    | erewrite run_bind by (apply (run_load_x 0); [lia | exact Hx0])
    | erewrite run_bind by (apply (run_load_x 0); [lia | exact Hx0]) ];
    erewrite run_bind by (apply run_checked; exact Hmove);
    [ rewrite run_store_y by lia | rewrite run_store_y by lia
    | rewrite run_store_x by lia | rewrite run_store_x by lia ];
    eexists; (split; [reflexivity|]);
    (split; [cbn [x y length]; rewrite ?length_insert; auto|]);
    (split; [apply Hbody; simpl; try assumption; intros j Hj;
             try reflexivity; apply list_lookup_insert_ne; lia|]);
    apply segment_Some; simpl;
    (split; [lia|]); split; try assumption;
    apply list_lookup_insert_eq; lia.
Qed.

(** The hypothesis [can_move] is what the call needs: without it the
    update of the head overflows. *)
Lemma update_snake_overflow (s : Snake) (d : Direction) (h : Z * Z) :
  well_formed s -> 1 <= length s -> segment s 0 = Some h -> ~ can_move d h ->
  update_snake d s = Undefined SignedOverflow.
Proof.
  intros Hwf Hlen Hhead Hmove.
  pose proof Hwf as (Hint & Hx & Hy). destruct h as [hx hy].
  apply segment_Some in Hhead as (_ & Hhx & Hhy). simpl in Hhx, Hhy.
  destruct (run_shift_loop (Z.to_nat (length s - 1)) s)
    as (s1 & Hloop & Hlen1 & [Lx Sx] & [Ly Sy]); [lia | lia |].
  assert (Hx0 : x s1 !! 0%nat = Some hx).
  { rewrite Sx. case_decide; [lia | assumption]. }
  assert (Hy0 : y s1 !! 0%nat = Some hy).
  { rewrite Sy. case_decide; [lia | assumption]. }
  unfold update_snake.
  erewrite run_bind by apply run_get_length.
  erewrite run_bind by (apply run_checked; unfold in_int, INT_MIN in *; lia).
  erewrite run_bind by exact Hloop.
  destruct d; simpl in Hmove;
    [ erewrite run_bind by (apply (run_load_y 0); [lia | exact Hy0])
    | erewrite run_bind by (apply (run_load_y 0); [lia | exact Hy0])
    | erewrite run_bind by (apply (run_load_x 0); [lia | exact Hx0])
    | erewrite run_bind by (apply (run_load_x 0); [lia | exact Hx0]) ];
    apply run_bind_undefined, run_checked_overflow; exact Hmove.
Qed.

(** C1. Postcondition of [update_snake]: on a snake of length at least 1,
    whose head stays an [int], the call returns; every segment [i] of
    [1..length-1] then holds the coordinate segment [i-1] had before the
    call, and the head is the old head with one unit applied for the
    direction ([y-1] for up, [y+1] for down, [x-1] for left, [x+1] for
    right, the other coordinate as it was). *)
Theorem update_snake_postcondition (s : Snake) (d : Direction) (h : Z * Z) :
  well_formed s -> 1 <= length s -> segment s 0 = Some h -> can_move d h ->
  exists s' h',
    update_snake d s = Ok (tt, s') /\
    (forall i, 1 <= i <= length s - 1 ->
       exists p, segment s (i - 1) = Some p /\ segment s' i = Some p) /\
    segment s' 0 = Some h' /\
    match d with
    | DIR_UP => h'.1 = h.1 /\ h'.2 = h.2 - 1
    | DIR_DOWN => h'.1 = h.1 /\ h'.2 = h.2 + 1
    | DIR_LEFT => h'.1 = h.1 - 1 /\ h'.2 = h.2
    | DIR_RIGHT => h'.1 = h.1 + 1 /\ h'.2 = h.2
    end.
Proof.
  intros Hwf Hlen Hhead Hmove.
  destruct (run_update_snake s d h Hwf Hlen Hhead Hmove)
    as (s' & Hrun & _ & Hshift & Hnew).
  exists s', (displace d h).
  split; [exact Hrun|]. split; [exact Hshift|]. split; [exact Hnew|].
  destruct d; split; reflexivity.
Qed.

(** ** Frame reasoning *)

Create HintDb frame.

Lemma read_only_keeps_length {A} (m : M A) : read_only m -> keeps_length m.
Proof. intros H s a s' Hm. now rewrite (H s a s' Hm). Qed.

Lemma read_only_ret {A} (a : A) : read_only (mret a : M A).
Proof. intros s a' s' [= _ <-]. reflexivity. Qed.

Lemma read_only_bind {A B} (m : M A) (k : A -> M B) :
  read_only m -> (forall a, read_only (k a)) -> read_only (m ≫= k).
Proof.
  intros Hm Hk s b s' (a & s1 & H1 & H2)%bind_Ok_inv.
  apply Hm in H1 as ->. now apply Hk in H2.
Qed.

Lemma keeps_length_bind {A B} (m : M A) (k : A -> M B) :
  keeps_length m -> (forall a, keeps_length (k a)) -> keeps_length (m ≫= k).
Proof.
  intros Hm Hk s b s' (a & s1 & H1 & H2)%bind_Ok_inv.
  apply Hm in H1. apply Hk in H2. congruence.
Qed.

Lemma read_only_checked n : read_only (checked n).
Proof. intros s a s' [[= _ <-] _]%checked_Ok_inv. reflexivity. Qed.

Lemma read_only_int_add a b : read_only (int_add a b).
Proof. apply read_only_checked. Qed.

Lemma read_only_int_sub a b : read_only (int_sub a b).
Proof. apply read_only_checked. Qed.

Lemma read_only_get_length : read_only get_length.
Proof. intros s a s' [= _ <-]. reflexivity. Qed.

Lemma read_only_load_x i : read_only (load_x i).
Proof. intros s a s' [H _]%load_x_Ok_inv. now symmetry. Qed.

Lemma read_only_load_y i : read_only (load_y i).
Proof. intros s a s' [H _]%load_y_Ok_inv. now symmetry. Qed.

Lemma keeps_length_store_x i v : keeps_length (store_x i v).
Proof. intros s a s' [H _]%store_x_Ok_inv. simpl in H. now subst s'. Qed.

Lemma keeps_length_store_y i v : keeps_length (store_y i v).
Proof. intros s a s' [H _]%store_y_Ok_inv. simpl in H. now subst s'. Qed.

#[local] Hint Resolve read_only_ret read_only_checked read_only_int_add
  read_only_int_sub read_only_get_length
  read_only_load_x read_only_load_y keeps_length_store_x keeps_length_store_y
  read_only_keeps_length : frame.

Ltac frame_steps :=
  repeat first
    [ apply read_only_bind; [|intros ?]
    | apply keeps_length_bind; [|intros ?]
    | match goal with |- context [if ?b then _ else _] => destruct b end
    | solve [auto with frame] ].

Lemma keeps_length_for_down n (body : Z -> M unit) :
  (forall i, keeps_length (body i)) -> keeps_length (for_down n body).
Proof.
  intros Hbody. induction n as [|n IH]; simpl; frame_steps.
Qed.

Lemma keeps_length_shift_segment i : keeps_length (shift_segment i).
Proof. unfold shift_segment. frame_steps. Qed.

Lemma keeps_length_update_snake d : keeps_length (update_snake d).
Proof.
  unfold update_snake. frame_steps.
  - apply keeps_length_for_down, keeps_length_shift_segment.
  - destruct d; frame_steps.
Qed.

Lemma read_only_head_hits i : read_only (head_hits i).
Proof. unfold head_hits. frame_steps. Qed.

Lemma read_only_scan_body n : forall i, read_only (scan_body n i).
Proof.
  induction n as [|n IH]; intros i; simpl; frame_steps.
Qed.

Lemma read_only_check_collision : read_only check_collision.
Proof.
  unfold check_collision. apply read_only_bind; [auto with frame | intros len].
  apply read_only_scan_body.
Qed.

Lemma read_only_for_up n (body : Z -> M unit) :
  (forall i, read_only (body i)) -> forall i, read_only (for_up n i body).
Proof.
  intros Hbody. induction n as [|n IH]; intros i; simpl; frame_steps.
Qed.

Lemma keeps_length_for_up n (body : Z -> M unit) :
  (forall i, keeps_length (body i)) -> forall i, keeps_length (for_up n i body).
Proof.
  intros Hbody. induction n as [|n IH]; intros i; simpl; frame_steps.
Qed.

Lemma read_only_print_snake : read_only print_snake.
Proof.
  unfold print_snake. apply read_only_bind; [auto with frame | intros len].
  apply read_only_for_up. intros i. unfold print_segment. frame_steps.
Qed.

Lemma read_only_draw_border max_x max_y : read_only (draw_border max_x max_y).
Proof.
  unfold draw_border.
  apply read_only_bind; [|intros _];
    apply read_only_for_up; intros _; frame_steps.
Qed.

(** ** The drawing loops return *)

Lemma run_print_loop n : forall i s,
  0 <= i ->
  i + Z.of_nat n <= Z.of_nat (List.length (x s)) ->
  i + Z.of_nat n <= Z.of_nat (List.length (y s)) ->
  for_up n i print_segment s = Ok (tt, s).
Proof.
  induction n as [|n IH]; intros i s Hi Hx Hy; [reflexivity|].
  destruct (lookup_lt_is_Some_2 (x s) (Z.to_nat i)) as [col Hcol]; [lia|].
  destruct (lookup_lt_is_Some_2 (y s) (Z.to_nat i)) as [row Hrow]; [lia|].
  cbn [for_up]. erewrite run_bind; [apply IH; lia|].
  unfold print_segment.
  run_by ltac:(apply run_load_y; [lia | exact Hrow]).
  run_by ltac:(apply run_load_x; [lia | exact Hcol]).
  reflexivity.
Qed.

Lemma run_print_snake s : well_formed s -> print_snake s = Ok (tt, s).
Proof.
  intros (_ & Hx & Hy). unfold print_snake.
  erewrite run_bind by apply run_get_length.
  apply run_print_loop; lia.
Qed.


(** ** [check_collision] returns, and what it returns *)

Lemma run_head_hits i s p q :
  0 <= i -> segment s 0 = Some p -> segment s i = Some q ->
  exists b, head_hits i s = Ok (b, s) /\ (b = true <-> p = q).
Proof.
  intros Hi Hp Hq. destruct p as [px py], q as [qx qy].
  apply segment_Some in Hp as (_ & Hpx & Hpy).
  apply segment_Some in Hq as (_ & Hqx & Hqy).
  unfold head_hits.
  erewrite run_bind by (apply (run_load_x 0); [lia | exact Hpx]).
  erewrite run_bind by (apply run_load_x; [lia | exact Hqx]).
  destruct (Z.eqb_spec px qx) as [->|Hne].
  - erewrite run_bind by (apply (run_load_y 0); [lia | exact Hpy]).
    erewrite run_bind by (apply run_load_y; [lia | exact Hqy]).
    exists (py =? qy). split; [reflexivity|].
    rewrite Z.eqb_eq. split; [now intros -> | now intros [= ->]].
  - exists false. split; [reflexivity|].
    split; [discriminate | intros [= ? _]; contradiction].
Qed.

Lemma run_scan_body n : forall i s,
  1 <= i ->
  ((0 < n)%nat -> forall j, 0 <= j < i + Z.of_nat n -> is_Some (segment s j)) ->
  exists b,
    scan_body n i s = Ok (b, s) /\
    (b = true <-> exists j, i <= j < i + Z.of_nat n /\ hits s j).
Proof.
  induction n as [|n IH]; intros i s Hi Halloc.
  - exists false. split; [reflexivity|].
    split; [discriminate | intros (j & Hj & _); lia].
  - destruct (Halloc ltac:(lia) 0 ltac:(lia)) as [p Hp].
    destruct (Halloc ltac:(lia) i ltac:(lia)) as [q Hq].
    destruct (run_head_hits i s p q ltac:(lia) Hp Hq) as (b0 & Hrun0 & Hb0).
    simpl. erewrite run_bind by exact Hrun0.
    destruct b0.
    + exists true. split; [reflexivity|]. split; [|reflexivity].
      intros _. exists i. split; [lia|]. exists p. split; [assumption|].
      assert (p = q) as -> by now apply Hb0. exact Hq.
    + destruct (IH (i + 1) s ltac:(lia)) as (b & Hrun & Hb).
      { intros _ j Hj. apply Halloc; lia. }
      exists b. split; [exact Hrun|]. rewrite Hb.
      split; intros (j & Hj & Hhit).
      * exists j. split; [lia | assumption].
      * exists j. split; [|assumption].
        destruct (Z.eq_dec j i) as [->|]; [|lia].
        destruct Hhit as (r & Hr0 & Hri).
        assert (p = q) as Hpq by congruence.
        apply Hb0 in Hpq. discriminate.
Qed.

Lemma run_check_collision (s : Snake) :
  well_formed s ->
  exists b,
    check_collision s = Ok (b, s) /\
    (b = true <-> exists i, 1 <= i <= length s - 1 /\ hits s i).
Proof.
  intros Hwf.
  destruct (run_scan_body (Z.to_nat (length s - 1)) 1 s ltac:(lia))
    as (b & Hrun & Hb).
  { intros Hn j Hj. destruct (segment_allocated s j Hwf) as [p Hp]; [lia|].
    now exists p. }
  exists b. split.
  - unfold check_collision.
    erewrite run_bind by apply run_get_length. exact Hrun.
  - rewrite Hb. split; intros (j & Hj & Hhit); exists j; (split; [lia|assumption]).
Qed.

(** C3. [check_collision] returns [true] exactly when the head's coordinate
    is the coordinate of a segment at an index of [1..length-1]; the snake
    [(5,5),(6,5),(5,5)] reports [true], and a snake whose segments are
    pairwise distinct reports [false].  The snake is left as it was. *)
Theorem check_collision_correct (s : Snake) :
  well_formed s ->
  (exists b,
     check_collision s = Ok (b, s) /\
     (b = true <-> exists i, 1 <= i <= length s - 1 /\ hits s i)) /\
  (pairwise_distinct s -> check_collision s = Ok (false, s)) /\
  check_collision (mkSnake [5; 6; 5] [5; 5; 5] 3)
    = Ok (true, mkSnake [5; 6; 5] [5; 5; 5] 3).
Proof.
  intros Hwf. pose proof (run_check_collision s Hwf) as Hrun.
  split; [exact Hrun|]. split; [|reflexivity].
  intros Hdistinct. destruct Hrun as ([|] & Hrun & Hb); [|exact Hrun].
  destruct Hb as [Hb _]. destruct (Hb eq_refl) as (i & Hi & p & H0 & Hp).
  exfalso. apply (Hdistinct 0 i); [lia | lia | congruence].
Qed.

(** C10. A snake of length 1 never reports a collision, whatever the head's
    coordinate is: the scan has no index to visit. *)
Theorem single_segment_no_collision (s : Snake) :
  length s = 1 -> check_collision s = Ok (false, s).
Proof.
  intros Hlen. unfold check_collision.
  erewrite run_bind by apply run_get_length. rewrite Hlen. reflexivity.
Qed.

(** ** [extend_snake] *)

Section Growth.

Variable indeterminate : Z.

Lemma realloc_ints_length l n :
  List.length (realloc_ints indeterminate l n) = Z.to_nat n.
Proof.
  unfold realloc_ints. rewrite length_app, length_take, length_replicate. lia.
Qed.

Lemma realloc_ints_lookup l n (j : nat) :
  (j < Z.to_nat n)%nat -> (j < List.length l)%nat ->
  realloc_ints indeterminate l n !! j = l !! j.
Proof.
  intros Hn Hl. unfold realloc_ints.
  rewrite lookup_app_l by (rewrite length_take; lia).
  apply lookup_take_lt. lia.
Qed.

Lemma run_extend_snake (s : Snake) :
  well_formed s -> 1 <= length s -> length s < INT_MAX ->
  exists s' tail,
    extend_snake indeterminate s = Ok (tt, s') /\
    segment s (length s - 1) = Some tail /\
    segment s' (length s) = Some tail /\
    length s' = length s + 1 /\
    Z.of_nat (List.length (x s')) = length s + 1 /\
    Z.of_nat (List.length (y s')) = length s + 1 /\
    (forall i, 0 <= i < length s -> segment s' i = segment s i).
Proof.
  intros Hwf Hlen Hmax. pose proof Hwf as (Hint & Hx & Hy).
  destruct (segment_allocated s (length s - 1) Hwf) as [[tx ty] Htail]; [lia|].
  pose proof Htail as (_ & Htx & Hty)%segment_Some.
  pose proof (realloc_ints_length (x s) (length s + 1)) as Lx.
  pose proof (realloc_ints_length (y s) (length s + 1)) as Ly.
  assert (Fx : forall j : nat, (j < Z.to_nat (length s))%nat ->
            realloc_ints indeterminate (x s) (length s + 1) !! j = x s !! j).
  { intros j Hj. apply realloc_ints_lookup; lia. }
  assert (Fy : forall j : nat, (j < Z.to_nat (length s))%nat ->
            realloc_ints indeterminate (y s) (length s + 1) !! j = y s !! j).
  { intros j Hj. apply realloc_ints_lookup; lia. }
  assert (Hn1 : in_int (length s + 1)) by (unfold in_int, INT_MIN in *; lia).
  assert (Hn0 : in_int (length s - 1)) by (unfold in_int, INT_MIN in *; lia).
  eexists _, (tx, ty).
  split; [|split; [exact Htail|]].
  - unfold extend_snake, int_add, int_sub.
    run_by ltac:(apply run_get_length).
    run_by ltac:(apply run_checked; exact Hn1).
    run_by ltac:(reflexivity).
    run_by ltac:(apply run_get_length).
    run_by ltac:(apply run_checked; exact Hn1).
    run_by ltac:(reflexivity).
    run_by ltac:(apply run_get_length).
    run_by ltac:(apply run_checked; exact Hn0).
    run_by ltac:(apply run_load_x; [lia | cbn [x]; rewrite Fx by lia; exact Htx]).
    run_by ltac:(apply run_get_length).
    run_by ltac:(apply run_store_x; cbn [x]; lia).
    run_by ltac:(apply run_get_length).
    run_by ltac:(apply run_checked; exact Hn0).
    run_by ltac:(apply run_load_y; [lia | cbn [y]; rewrite Fy by lia; exact Hty]).
    run_by ltac:(apply run_get_length).
    run_by ltac:(apply run_store_y; cbn [y]; lia).
    run_by ltac:(apply run_get_length).
    run_by ltac:(apply run_checked; exact Hn1).
    reflexivity.
  - cbn [x y length]. rewrite !length_insert, Lx, Ly.
    split; [|split; [reflexivity|split; [lia|split; [lia|]]]].
    + apply segment_Some. cbn [x y]. split; [lia|].
      split; apply list_lookup_insert_eq; lia.
    + intros i Hi. unfold segment. cbn [x y].
      rewrite !list_lookup_insert_ne by lia.
      rewrite Fx, Fy by lia. reflexivity.
Qed.

(** C4. [extend_snake], on a snake of length at least 1 (and below
    [INT_MAX], so that the new length is an [int]), returns; it appends
    exactly one segment, at index [length], whose coordinate is the one of
    the tail (index [length-1]) before the call; [length] goes up by exactly
    1; and every segment that was there keeps its coordinate. *)
Theorem extend_snake_appends_tail (s : Snake) :
  well_formed s -> 1 <= length s -> length s < INT_MAX ->
  exists s' tail,
    extend_snake indeterminate s = Ok (tt, s') /\
    segment s (length s - 1) = Some tail /\
    segment s' (length s) = Some tail /\
    length s' = length s + 1 /\
    Z.of_nat (List.length (x s')) = length s + 1 /\
    Z.of_nat (List.length (y s')) = length s + 1 /\
    (forall i, 0 <= i < length s -> segment s' i = segment s i).
Proof. exact (run_extend_snake s). Qed.

End Growth.

(** ** Wraparound *)

Lemma run_wrap_around s max_x max_y hx hy :
  dimension max_x -> dimension max_y ->
  x s !! 0%nat = Some hx -> y s !! 0%nat = Some hy ->
  wrap_around max_x max_y s =
    Ok (tt, mkSnake (<[0%nat := wrap_coordinate max_x hx]> (x s))
              (<[0%nat := wrap_coordinate max_y hy]> (y s))
              (length s)).
Proof.
  intros [Hmx Hmx2] [Hmy Hmy2] Hx Hy.
  assert (Hmx1 : in_int (max_x - 1)) by (unfold in_int in *; lia).
  assert (Hmy1 : in_int (max_y - 1)) by (unfold in_int in *; lia).
  pose proof (lookup_lt_Some _ _ _ Hx) as Lx.
  pose proof (lookup_lt_Some _ _ _ Hy) as Ly.
  unfold wrap_around, wrap_coordinate, int_sub.
  run_by ltac:(apply (run_load_x 0); [lia | exact Hx]).
  assert (Hfirst : forall k : unit -> M unit,
    ((if hx <=? 0
      then v ← checked (max_x - 2); store_x 0 v
      else x0 ← load_x 0; right ← checked (max_x - 1);
           if x0 >=? right then store_x 0 1 else mret tt) ≫= k) s
    = k tt (mkSnake
              (<[0%nat := if hx <=? 0 then max_x - 2
                          else if hx >=? max_x - 1 then 1 else hx]> (x s))
              (y s) (length s))).
  { intros k. destruct (hx <=? 0).
    - erewrite run_bind; [reflexivity|].
      run_by ltac:(apply run_checked; exact Hmx2).
      apply run_store_x. lia.
    - erewrite run_bind; [reflexivity|].
      run_by ltac:(apply (run_load_x 0); [lia | exact Hx]).
      run_by ltac:(apply run_checked; exact Hmx1).
      destruct (hx >=? max_x - 1).
      + apply run_store_x. lia.
      + rewrite list_insert_id by exact Hx. now destruct s. }
  rewrite Hfirst.
  run_by ltac:(apply (run_load_y 0); [lia | exact Hy]).
  destruct (hy <=? 0).
  - run_by ltac:(apply run_checked; exact Hmy2).
    rewrite run_store_y by (cbn [y]; lia). reflexivity.
  - run_by ltac:(apply (run_load_y 0); [lia | exact Hy]).
    run_by ltac:(apply run_checked; exact Hmy1).
    destruct (hy >=? max_y - 1).
    + rewrite run_store_y by (cbn [y]; lia). reflexivity.
    + rewrite (list_insert_id (y s)) by exact Hy. reflexivity.
Qed.

Lemma keeps_length_wrap_around max_x max_y :
  keeps_length (wrap_around max_x max_y).
Proof. unfold wrap_around. frame_steps. Qed.

(** C2. The wraparound of [main] changes the head only: its [x] becomes
    [max_x-2] when [x <= 0], else 1 when [x >= max_x-1]; independently its
    [y] becomes [max_y-2] when [y <= 0], else 1 when [y >= max_y-1]; a head
    strictly inside is as it was; no other segment and not the length
    changes.  On a 20 by 10 screen, x=0 gives 18, x=19 gives 1, y=0 gives 8
    and y=9 gives 1. *)
Theorem wrap_around_head_only (s : Snake) (max_x max_y : Z) (h : Z * Z) :
  dimension max_x -> dimension max_y -> segment s 0 = Some h ->
  exists s',
    wrap_around max_x max_y s = Ok (tt, s') /\
    segment s' 0 = Some (wrap_coordinate max_x h.1, wrap_coordinate max_y h.2) /\
    (h.1 <= 0 -> wrap_coordinate max_x h.1 = max_x - 2) /\
    (0 < h.1 -> h.1 >= max_x - 1 -> wrap_coordinate max_x h.1 = 1) /\
    (h.2 <= 0 -> wrap_coordinate max_y h.2 = max_y - 2) /\
    (0 < h.2 -> h.2 >= max_y - 1 -> wrap_coordinate max_y h.2 = 1) /\
    (0 < h.1 < max_x - 1 -> 0 < h.2 < max_y - 1 -> s' = s) /\
    (forall i, i <> 0 -> segment s' i = segment s i) /\
    length s' = length s /\
    wrap_around 20 10 (mkSnake [0; 1; 2] [0; 0; 0] 3)
      = Ok (tt, mkSnake [18; 1; 2] [8; 0; 0] 3) /\
    wrap_around 20 10 (mkSnake [19; 18; 17] [9; 9; 9] 3)
      = Ok (tt, mkSnake [1; 18; 17] [1; 9; 9] 3).
Proof.
  intros Hmx Hmy Hh. destruct h as [hx hy].
  apply segment_Some in Hh as (_ & Hx & Hy). simpl in Hx, Hy.
  pose proof (lookup_lt_Some _ _ _ Hx) as Lx.
  pose proof (lookup_lt_Some _ _ _ Hy) as Ly.
  eexists. split; [apply (run_wrap_around s max_x max_y hx hy); assumption|].
  cbn [fst snd]. unfold wrap_coordinate.
  repeat split; try reflexivity.
  - apply segment_Some. cbn [x y].
    split; [lia|split; apply list_lookup_insert_eq; lia].
  - intros H. destruct (Z.leb_spec hx 0); [reflexivity | lia].
  - intros H1 H2. destruct (Z.leb_spec hx 0); [lia|].
    destruct (Z.geb_spec hx (max_x - 1)); [reflexivity | lia].
  - intros H. destruct (Z.leb_spec hy 0); [reflexivity | lia].
  - intros H1 H2. destruct (Z.leb_spec hy 0); [lia|].
    destruct (Z.geb_spec hy (max_y - 1)); [reflexivity | lia].
  - intros H1 H2.
    destruct (Z.leb_spec hx 0); [lia|]. destruct (Z.leb_spec hy 0); [lia|].
    destruct (Z.geb_spec hx (max_x - 1)); [lia|].
    destruct (Z.geb_spec hy (max_y - 1)); [lia|].
    rewrite !list_insert_id by assumption. now destruct s.
  - intros i Hi. unfold segment. cbn [x y].
    destruct (Z.leb_spec 0 i); [|reflexivity].
    rewrite !list_lookup_insert_ne by lia. reflexivity.
Qed.

Lemma wrap_coordinate_interior limit v :
  3 <= limit -> 1 <= wrap_coordinate limit v <= limit - 2.
Proof.
  intros H. unfold wrap_coordinate.
  destruct (Z.leb_spec v 0); [lia|].
  destruct (Z.geb_spec v (limit - 1)); lia.
Qed.

Lemma dimension_of_screen limit : 0 <= limit <= INT_MAX -> dimension limit.
Proof. unfold dimension, in_int, INT_MIN, INT_MAX. lia. Qed.

(** ** The snake at game start *)

Section Start.

Variable indeterminate : Z.

Lemma run_init_snake max_x max_y uninit :
  in_int max_x ->
  init_snake indeterminate max_x max_y uninit =
    Ok (tt, mkSnake [max_x ÷ 2 + 0; max_x ÷ 2 + 1; max_x ÷ 2 + 2;
                     max_x ÷ 2 + 3; max_x ÷ 2 + 4]
              (replicate 5 (max_y ÷ 2)) INITIAL_SNAKE_LENGTH).
Proof.
  intros Hmx.
  assert (Hcell : forall i, 0 <= i <= 4 -> in_int (max_x ÷ 2 + i)).
  { intros i Hi. unfold in_int, INT_MIN, INT_MAX in *.
    pose proof (Z.quot_rem' max_x 2) as Hq.
    destruct (Z_lt_le_dec max_x 0) as [Hneg|Hpos].
    - pose proof (Z.rem_nonpos max_x 2 ltac:(lia) ltac:(lia)).
      pose proof (Z.rem_bound_neg_neg max_x 2) as Hr.
      assert (-2 < Z.rem max_x 2).
      { rewrite <- (Z.opp_involutive max_x), Z.rem_opp_l by lia.
        pose proof (Z.rem_bound_pos (- max_x) 2 ltac:(lia) ltac:(lia)). lia. }
      lia.
    - pose proof (Z.rem_bound_pos max_x 2 ltac:(lia) ltac:(lia)). lia. }
  assert (Hplace : forall i s, 0 <= i <= 4 ->
    i < Z.of_nat (List.length (x s)) -> i < Z.of_nat (List.length (y s)) ->
    place_segment max_x max_y i s =
      Ok (tt, mkSnake (<[Z.to_nat i := max_x ÷ 2 + i]> (x s))
                (<[Z.to_nat i := max_y ÷ 2]> (y s)) (length s))).
  { intros i s Hi Lx Ly. unfold place_segment, int_add.
    run_by ltac:(apply run_checked; apply Hcell; lia).
    run_by ltac:(apply run_store_x; lia).
    rewrite run_store_y by (cbn [y]; lia). reflexivity. }
  unfold init_snake.
  run_by ltac:(reflexivity).
  run_by ltac:(apply run_get_length).
  run_by ltac:(reflexivity).
  run_by ltac:(apply run_get_length).
  run_by ltac:(reflexivity).
  run_by ltac:(apply run_get_length).
  change (Z.to_nat INITIAL_SNAKE_LENGTH) with 5%nat.
  change (malloc_ints indeterminate INITIAL_SNAKE_LENGTH)
    with (replicate 5 indeterminate).
  cbn [for_up].
  do 5 run_by ltac:(apply Hplace; cbn [x y]; rewrite ?length_insert; simpl; lia).
  reflexivity.
Qed.

(** C8, as the code has it.  At game start the snake has exactly
    [INITIAL_SNAKE_LENGTH] = 5 segments on the row [max_y / 2]; segment [i]
    is at column [max_x / 2 + i]: a contiguous horizontal run that starts at
    the screen's middle column with the head (index 0) and extends to the
    right of it. *)
Theorem init_snake_layout (max_x max_y : Z) (uninit : Snake) :
  in_int max_x ->
  exists s,
    init_snake indeterminate max_x max_y uninit = Ok (tt, s) /\
    length s = INITIAL_SNAKE_LENGTH /\ INITIAL_SNAKE_LENGTH = 5 /\
    List.length (x s) = 5%nat /\ List.length (y s) = 5%nat /\
    (forall i, 0 <= i < 5 -> segment s i = Some (max_x ÷ 2 + i, max_y ÷ 2)) /\
    (forall i, 0 <= i < 4 ->
       exists p q, segment s i = Some p /\ segment s (i + 1) = Some q /\
                   q.1 = p.1 + 1 /\ q.2 = p.2) /\
    segment s 0 = Some (max_x ÷ 2, max_y ÷ 2).
Proof.
  intros Hmx. eexists. split; [apply run_init_snake; exact Hmx|].
  assert (Hseg : forall i, 0 <= i < 5 ->
    segment (mkSnake [max_x ÷ 2 + 0; max_x ÷ 2 + 1; max_x ÷ 2 + 2;
                      max_x ÷ 2 + 3; max_x ÷ 2 + 4]
               (replicate 5 (max_y ÷ 2)) INITIAL_SNAKE_LENGTH) i
    = Some (max_x ÷ 2 + i, max_y ÷ 2)).
  { intros i Hi.
    assert (i = 0 \/ i = 1 \/ i = 2 \/ i = 3 \/ i = 4) as Hcases by lia.
    destruct Hcases as [->|[->|[->|[->| ->]]]]; reflexivity. }
  repeat split; try reflexivity.
  - exact Hseg.
  - intros i Hi. exists (max_x ÷ 2 + i, max_y ÷ 2), (max_x ÷ 2 + (i + 1), max_y ÷ 2).
    split; [apply Hseg; lia|]. split; [apply Hseg; lia|]. cbn [fst snd]. lia.
  - rewrite (Hseg 0) by lia. now rewrite Z.add_0_r.
Qed.

End Start.

(** C8, as the specification words it, fails: on an 80 by 24 screen the
    snake occupies columns 40 to 44, with 40 free columns on its left and
    35 on its right. *)
Lemma init_snake_not_centered :
  init_snake 0 80 24 (mkSnake [] [] 0)
    = Ok (tt, mkSnake [40; 41; 42; 43; 44] [12; 12; 12; 12; 12] 5) /\
  ~ centered_in_width 80 (mkSnake [40; 41; 42; 43; 44] [12; 12; 12; 12; 12] 5).
Proof.
  split; [reflexivity|].
  unfold centered_in_width, leftmost, rightmost. simpl. lia.
Qed.

(** ** Direction reversal *)

Lemma run_wrap_around_inside s max_x max_y h :
  dimension max_x -> dimension max_y -> segment s 0 = Some h ->
  0 < h.1 < max_x - 1 -> 0 < h.2 < max_y - 1 ->
  wrap_around max_x max_y s = Ok (tt, s).
Proof.
  intros Hmx Hmy Hh Hx Hy. destruct h as [hx hy]. cbn [fst snd] in *.
  apply segment_Some in Hh as (_ & Hhx & Hhy). simpl in Hhx, Hhy.
  rewrite (run_wrap_around s max_x max_y hx hy) by assumption.
  unfold wrap_coordinate.
  destruct (Z.leb_spec hx 0); [lia|]. destruct (Z.leb_spec hy 0); [lia|].
  destruct (Z.geb_spec hx (max_x - 1)); [lia|].
  destruct (Z.geb_spec hy (max_y - 1)); [lia|].
  rewrite !list_insert_id by assumption. now destruct s.
Qed.

Section Reversal.

Context `{curses : Curses}.
Variable indeterminate : Z.

Lemma codes_apart :
  (KEY_DOWN <> KEY_UP /\ KEY_LEFT <> KEY_UP /\ KEY_RIGHT <> KEY_UP) /\
  (KEY_LEFT <> KEY_DOWN /\ KEY_RIGHT <> KEY_DOWN) /\
  KEY_RIGHT <> KEY_LEFT /\
  ERR ∉ [KEY_UP; KEY_DOWN; KEY_LEFT; KEY_RIGHT].
Proof.
  pose proof codes_distinct as Hd.
  apply NoDup_cons in Hd as [He Hd].
  apply NoDup_cons in Hd as [Hu Hd].
  apply NoDup_cons in Hd as [Hdn Hd].
  apply NoDup_cons in Hd as [Hl _].
  repeat split; try assumption; intros E; rewrite E in *;
    first [ solve [apply Hu; repeat constructor]
          | solve [apply Hdn; repeat constructor]
          | solve [apply Hl; repeat constructor] ].
Qed.

Lemma get_new_direction_keys cur :
  get_new_direction cur KEY_UP = DIR_UP /\
  get_new_direction cur KEY_DOWN = DIR_DOWN /\
  get_new_direction cur KEY_LEFT = DIR_LEFT /\
  get_new_direction cur KEY_RIGHT = DIR_RIGHT.
Proof.
  destruct codes_apart as ((Hdu & Hlu & Hru) & (Hld & Hrd) & Hrl & _).
  unfold get_new_direction. rewrite !Z.eqb_refl.
  apply Z.eqb_neq in Hdu, Hlu, Hru, Hld, Hrd, Hrl.
  rewrite Hdu, Hlu, Hru, Hld, Hrd, Hrl. auto.
Qed.

Lemma get_new_direction_other cur ch :
  ch ∉ [KEY_UP; KEY_DOWN; KEY_LEFT; KEY_RIGHT] ->
  get_new_direction cur ch = cur.
Proof.
  intros Hch. unfold get_new_direction.
  destruct (Z.eqb_spec ch KEY_UP) as [->|_].
  { exfalso. apply Hch. apply list_elem_of_here. }
  destruct (Z.eqb_spec ch KEY_DOWN) as [->|_].
  { exfalso. apply Hch. do 1 apply list_elem_of_further. apply list_elem_of_here. }
  destruct (Z.eqb_spec ch KEY_LEFT) as [->|_].
  { exfalso. apply Hch. do 2 apply list_elem_of_further. apply list_elem_of_here. }
  destruct (Z.eqb_spec ch KEY_RIGHT) as [->|_]; [|reflexivity].
  exfalso. apply Hch. do 3 apply list_elem_of_further. apply list_elem_of_here.
Qed.

Lemma ERR_not_a_key : ERR ∉ [KEY_UP; KEY_DOWN; KEY_LEFT; KEY_RIGHT].
Proof. apply codes_apart. Qed.

Lemma run_reversed_tick s d h max_x max_y :
  well_formed s -> 3 <= length s -> straight_line s d h ->
  dimension max_x -> dimension max_y ->
  0 < (displace (opposite d) h).1 < max_x - 1 ->
  0 < (displace (opposite d) h).2 < max_y - 1 ->
  exists s',
    update_snake (opposite d) s = Ok (tt, s') /\
    wrap_around max_x max_y s' = Ok (tt, s') /\
    check_collision s' = Ok (true, s') /\
    length s' = length s.
Proof.
  intros Hwf Hlen Hline Hmx Hmy Hx Hy.
  assert (Hhead : segment s 0 = Some h).
  { rewrite (Hline 0) by lia. f_equal.
    destruct h as [hx hy], d; cbn; f_equal; lia. }
  assert (Hmove : can_move (opposite d) h).
  { destruct Hmx as [Hmx _], Hmy as [Hmy _].
    unfold can_move, in_int, INT_MIN in *. destruct d; cbn in *; lia. }
  destruct (run_update_snake s (opposite d) h Hwf ltac:(lia) Hhead Hmove)
    as (s' & Hrun & (Hl & Lx & Ly) & Hshift & Hnew).
  assert (Hwf' : well_formed s').
  { destruct Hwf as (? & ? & ?). unfold well_formed. rewrite Hl, Lx, Ly. auto. }
  exists s'. split; [exact Hrun|].
  split; [apply (run_wrap_around_inside _ _ _ _ Hmx Hmy Hnew Hx Hy)|].
  split; [|exact Hl].
  destruct (run_check_collision s' Hwf') as (b & Hcheck & Hb).
  assert (b = true) as ->; [|exact Hcheck].
  apply Hb. exists 2. split; [lia|].
  exists (displace (opposite d) h). split; [exact Hnew|].
  destruct (Hshift 2 ltac:(lia)) as (p & Hold & Hp).
  rewrite Hp, <- Hold. rewrite (Hline (2 - 1)) by lia. reflexivity.
Qed.

(** C6. [get_new_direction] has no reversal guard: each arrow key gives its
    direction whatever the current one is, the opposite of the current one
    included, and any other value, [ERR] for no key included, gives the
    current direction back.  For a snake of length at least 3 stretched out
    straight behind its head, the tick that moves it in the reversed
    direction, the head staying strictly inside the border so that the wrap
    changes nothing, ends in a collision: [check_collision] returns [true]
    and the loop breaks with [game_over] set. *)
Theorem no_reversal_guard (cur : Direction) (ch : Z) :
  (get_new_direction cur KEY_UP = DIR_UP /\
   get_new_direction cur KEY_DOWN = DIR_DOWN /\
   get_new_direction cur KEY_LEFT = DIR_LEFT /\
   get_new_direction cur KEY_RIGHT = DIR_RIGHT) /\
  get_new_direction cur (key_of (opposite cur)) = opposite cur /\
  (ch ∉ [KEY_UP; KEY_DOWN; KEY_LEFT; KEY_RIGHT] ->
   get_new_direction cur ch = cur) /\
  get_new_direction cur ERR = cur /\
  forall (g : Game) (inp : Input) (max_x max_y : Z) (h : Z * Z),
    well_formed (snake g) -> 3 <= length (snake g) ->
    straight_line (snake g) cur h ->
    current_direction g = get_new_direction cur (key_of (opposite cur)) ->
    quit_key inp <> char_q ->
    dimension max_x -> dimension max_y ->
    0 < (displace (opposite cur) h).1 < max_x - 1 ->
    0 < (displace (opposite cur) h).2 < max_y - 1 ->
    exists s',
      update_snake (opposite cur) (snake g) = Ok (tt, s') /\
      wrap_around max_x max_y s' = Ok (tt, s') /\
      check_collision s' = Ok (true, s') /\
      loop_body indeterminate max_x max_y g inp
        = Ok (Break (mkGame s' (opposite cur) true (last_extend_time g))).
Proof.
  pose proof (get_new_direction_keys cur) as Hkeys.
  assert (Hopp : get_new_direction cur (key_of (opposite cur)) = opposite cur).
  { destruct Hkeys as (? & ? & ? & ?). destruct cur; assumption. }
  split; [exact Hkeys|]. split; [exact Hopp|].
  split; [apply get_new_direction_other|].
  split; [apply get_new_direction_other, ERR_not_a_key|].
  intros g inp max_x max_y h Hwf Hlen Hline Hdir Hquit Hmx Hmy Hx Hy.
  rewrite Hopp in Hdir.
  destruct (run_reversed_tick _ _ _ _ _ Hwf Hlen Hline Hmx Hmy Hx Hy)
    as (s' & Hupd & Hwrap & Hcheck & _).
  exists s'. repeat (split; [assumption|]).
  unfold loop_body. destruct (Z.eqb_spec (quit_key inp) char_q); [contradiction|].
  rewrite Hdir.
  erewrite run_bind by (apply run_print_snake; exact Hwf).
  erewrite run_bind by exact Hupd.
  erewrite run_bind by exact Hwrap.
  rewrite Hcheck. reflexivity.
Qed.

End Reversal.

(** ** The game loop *)

Lemma grows_by_one_bind {A B} (m : M A) (k : A -> M B) :
  keeps_length m -> (forall a, grows_by_one (k a)) -> grows_by_one (m ≫= k).
Proof.
  intros Hm Hk s b s' (a & s1 & H1 & H2)%bind_Ok_inv.
  apply Hm in H1. apply Hk in H2. congruence.
Qed.

Lemma grows_by_one_increment :
  grows_by_one (len ← get_length; len' ← int_add len 1; set_length len').
Proof.
  intros s a s' (len & s1 & [= <- <-] & H)%bind_Ok_inv.
  apply bind_Ok_inv in H as (len' & s2 & [[= <- <-] _]%checked_Ok_inv & H).
  injection H as _ <-. reflexivity.
Qed.

Section Loop.

Context `{curses : Curses}.
Variable indeterminate : Z.
Variables max_x max_y : Z.

Lemma keeps_length_realloc_x n : keeps_length (realloc_x indeterminate n).
Proof. intros s a s' [= _ <-]. reflexivity. Qed.

Lemma keeps_length_realloc_y n : keeps_length (realloc_y indeterminate n).
Proof. intros s a s' [= _ <-]. reflexivity. Qed.

Lemma grows_by_one_extend_snake : grows_by_one (extend_snake indeterminate).
Proof.
  unfold extend_snake.
  repeat first
    [ apply grows_by_one_increment
    | apply grows_by_one_bind;
      [ solve [auto using keeps_length_realloc_x, keeps_length_realloc_y
                 with frame]
      | intros ? ] ].
Qed.

Lemma growth_Ok_inv now last s r :
  growth indeterminate now last s = Ok r ->
  (now - last >= EXTEND_INTERVAL /\ r.1 = now /\ length r.2 = length s + 1) \/
  (now - last < EXTEND_INTERVAL /\ r = (last, s)).
Proof.
  unfold growth. destruct (Z.geb_spec (now - last) EXTEND_INTERVAL) as [Hge|Hlt].
  - intros (u & s1 & Hext & [= <-])%bind_Ok_inv. left.
    apply grows_by_one_extend_snake in Hext. cbn [fst snd]. auto with zarith.
  - intros [= <-]. right. auto.
Qed.

(** The ways in which one iteration of the loop ends. *)
Lemma loop_body_Ok_inv g inp f :
  loop_body indeterminate max_x max_y g inp = Ok f ->
  (quit_key inp = char_q /\ f = Break g) \/
  (quit_key inp <> char_q /\
   exists s0 s1,
     print_snake (snake g) = Ok (tt, snake g) /\
     update_snake (current_direction g) (snake g) = Ok (tt, s0) /\
     wrap_around max_x max_y s0 = Ok (tt, s1) /\
     ((check_collision s1 = Ok (true, s1) /\
       f = Break (mkGame s1 (current_direction g) true (last_extend_time g))) \/
      (check_collision s1 = Ok (false, s1) /\
       exists last s2,
         print_snake s1 = Ok (tt, s1) /\
         draw_border max_x max_y s1 = Ok (tt, s1) /\
         growth indeterminate (current_time inp) (last_extend_time g) s1
           = Ok (last, s2) /\
         f = Continue
               (mkGame s2
                  (get_new_direction (current_direction g) (direction_key inp))
                  false last)))).
Proof.
  unfold loop_body.
  destruct (Z.eqb_spec (quit_key inp) char_q) as [Hq|Hq].
  { intros [= <-]. left. auto. }
  intros H. right. split; [exact Hq|].
  match type of H with
  | match ?m with _ => _ end = _ => destruct m as [[b s1']|u] eqn:Hsteps
  end; [|discriminate].
  apply bind_Ok_inv in Hsteps as ([] & s & Hprint & Hsteps).
  pose proof (read_only_print_snake _ _ _ Hprint) as ->.
  apply bind_Ok_inv in Hsteps as ([] & s0 & Hupd & Hsteps).
  apply bind_Ok_inv in Hsteps as ([] & s1 & Hwrap & Hcheck).
  pose proof (read_only_check_collision _ _ _ Hcheck) as ->.
  exists s0, s1. split; [exact Hprint|]. split; [exact Hupd|].
  split; [exact Hwrap|].
  destruct b.
  - left. injection H as [= <-]. auto.
  - right. split; [exact Hcheck|].
    match type of H with
    | match ?m with _ => _ end = _ => destruct m as [[last s2]|u] eqn:Hrest
    end; [|discriminate].
    apply bind_Ok_inv in Hrest as ([] & s & Hprint' & Hrest).
    pose proof (read_only_print_snake _ _ _ Hprint') as ->.
    apply bind_Ok_inv in Hrest as ([] & s & Hborder & Hgrow).
    pose proof (read_only_draw_border _ _ _ _ _ Hborder) as ->.
    injection H as [= <-]. exists last, s2. auto.
Qed.

Lemma loop_body_length g inp f :
  loop_body indeterminate max_x max_y g inp = Ok f ->
  length (snake (game_of f)) = length (snake g) \/
  length (snake (game_of f)) = length (snake g) + 1.
Proof.
  intros [[_ ->]|(_ & s0 & s1 & _ & Hupd & Hwrap & Hrest)]%loop_body_Ok_inv.
  { left. reflexivity. }
  apply keeps_length_update_snake in Hupd.
  apply keeps_length_wrap_around in Hwrap.
  destruct Hrest as [[_ ->]|(_ & last & s2 & _ & _ & Hgrow & ->)];
    cbn [game_of snake].
  - left. congruence.
  - apply growth_Ok_inv in Hgrow as [(_ & _ & Hl)|[_ [= _ <-]]];
      cbn [fst snd] in *; [right | left]; congruence.
Qed.

Lemma game_start_length uninit start_time g :
  game_start indeterminate max_x max_y uninit start_time = Ok g ->
  length (snake g) = INITIAL_SNAKE_LENGTH.
Proof.
  unfold game_start.
  destruct (init_snake _ _ _ uninit) as [[[] s]|u] eqn:Hinit; [|discriminate].
  intros [= <-]. cbn [snake].
  unfold init_snake in Hinit.
  apply bind_Ok_inv in Hinit as ([] & s1 & [= <-] & Hinit).
  assert (Hkeep : keeps_length
    (len ← get_length; malloc_x indeterminate len;;
     len ← get_length; malloc_y indeterminate len;;
     len ← get_length;
     for_up (Z.to_nat len) 0 (place_segment max_x max_y))).
  { assert (forall n i, keeps_length (for_up n i (place_segment max_x max_y))).
    { intros n. apply keeps_length_for_up. intros i.
      unfold place_segment. frame_steps. }
    assert (forall n, keeps_length (malloc_x indeterminate n))
      by (intros n s' a s'' [= _ <-]; reflexivity).
    assert (forall n, keeps_length (malloc_y indeterminate n))
      by (intros n s' a s'' [= _ <-]; reflexivity).
    frame_steps. }
  apply Hkeep in Hinit. exact Hinit.
Qed.

Lemma reachable_length f :
  reachable indeterminate max_x max_y f -> INITIAL_SNAKE_LENGTH <= length (snake (game_of f)).
Proof.
  induction 1 as [uninit start_time g Hstart | g inp f _ IH Hbody].
  - apply game_start_length in Hstart. cbn [game_of]. lia.
  - apply loop_body_length in Hbody. cbn [game_of] in IH. lia.
Qed.

Lemma run_length inputs : forall g g',
  run indeterminate max_x max_y inputs g = Ok g' ->
  length (snake g) <= length (snake g').
Proof.
  induction inputs as [|inp rest IH]; intros g g' Hrun; simpl in Hrun.
  - injection Hrun as <-. lia.
  - destruct (game_over g); [injection Hrun as <-; lia|].
    destruct (loop_body indeterminate max_x max_y g inp) as [[g1|g1]|u] eqn:Hbody;
      [| |discriminate];
      apply loop_body_length in Hbody; cbn [game_of] in Hbody.
    + apply IH in Hrun. lia.
    + injection Hrun as <-. lia.
Qed.

Lemma main_length uninit start_time inputs g :
  main indeterminate max_x max_y uninit start_time inputs = Ok g ->
  INITIAL_SNAKE_LENGTH <= length (snake g).
Proof.
  unfold main.
  destruct (game_start indeterminate max_x max_y uninit start_time)
    as [g0|u] eqn:Hstart; [|discriminate].
  intros Hrun%run_length. apply game_start_length in Hstart. lia.
Qed.

(** C5. The snake's length starts at [INITIAL_SNAKE_LENGTH] = 5; one
    iteration of the game loop leaves it equal or one greater; over a whole
    run it never goes down; and in every state the loop reaches, and in the
    one [main] ends in, it is at least 5, so at least 1. *)
Theorem length_invariant :
  (INITIAL_SNAKE_LENGTH = 5 /\
   forall uninit start_time g,
     game_start indeterminate max_x max_y uninit start_time = Ok g ->
     length (snake g) = INITIAL_SNAKE_LENGTH) /\
  (forall g inp f,
     loop_body indeterminate max_x max_y g inp = Ok f ->
     length (snake (game_of f)) = length (snake g) \/
     length (snake (game_of f)) = length (snake g) + 1) /\
  (forall inputs g g',
     run indeterminate max_x max_y inputs g = Ok g' ->
     length (snake g) <= length (snake g')) /\
  (forall f, reachable indeterminate max_x max_y f ->
     1 <= length (snake (game_of f))) /\
  (forall uninit start_time inputs g,
     main indeterminate max_x max_y uninit start_time inputs = Ok g ->
     1 <= length (snake g)).
Proof.
  split; [split; [reflexivity | exact game_start_length]|].
  split; [exact loop_body_length|].
  split; [intros inputs; exact (run_length inputs)|].
  split.
  - intros f Hf%reachable_length. unfold INITIAL_SNAKE_LENGTH in Hf. lia.
  - intros uninit start_time inputs g Hg%main_length.
    unfold INITIAL_SNAKE_LENGTH in Hg. lia.
Qed.

Lemma loop_body_length_changed g inp f :
  loop_body indeterminate max_x max_y g inp = Ok f ->
  length (snake (game_of f)) <> length (snake g) ->
  current_time inp - last_extend_time g >= EXTEND_INTERVAL /\
  exists s1,
    length s1 = length (snake g) /\
    extend_snake indeterminate s1 = Ok (tt, snake (game_of f)).
Proof.
  intros [[_ ->]|(_ & s0 & s1 & _ & Hupd & Hwrap & Hrest)]%loop_body_Ok_inv Hne.
  { contradiction. }
  apply keeps_length_update_snake in Hupd.
  apply keeps_length_wrap_around in Hwrap.
  destruct Hrest as [[_ ->]|(_ & last & s2 & _ & _ & Hgrow & ->)];
    cbn [game_of snake] in *.
  { exfalso. apply Hne. congruence. }
  unfold growth in Hgrow.
  destruct (Z.geb_spec (current_time inp - last_extend_time g) EXTEND_INTERVAL).
  - apply bind_Ok_inv in Hgrow as ([] & s2' & Hext & [= _ <-]).
    split; [lia|]. exists s1. split; [congruence | exact Hext].
  - injection Hgrow as _ <-. exfalso. apply Hne. congruence.
Qed.

(** C9. Frame: [update_snake] leaves [length] as it was, for every snake
    and direction; [check_collision] leaves the whole snake as it was, its
    length and every coordinate; [extend_snake] does change [length], and
    an iteration of the loop that changes it has called [extend_snake]. *)
Theorem frame_properties (s : Snake) :
  (forall d s', update_snake d s = Ok (tt, s') -> length s' = length s) /\
  (forall b s', check_collision s = Ok (b, s') -> s' = s) /\
  (forall s', extend_snake indeterminate s = Ok (tt, s') ->
     length s' = length s + 1 /\ length s' <> length s) /\
  (forall s', wrap_around max_x max_y s = Ok (tt, s') -> length s' = length s) /\
  (forall g inp f,
     snake g = s ->
     loop_body indeterminate max_x max_y g inp = Ok f ->
     length (snake (game_of f)) <> length s ->
     exists s1,
       length s1 = length s /\
       extend_snake indeterminate s1 = Ok (tt, snake (game_of f))).
Proof.
  split; [intros d s'; apply keeps_length_update_snake|].
  split; [intros b s'; apply read_only_check_collision|].
  split; [intros s' H%grows_by_one_extend_snake; lia|].
  split; [intros s'; apply keeps_length_wrap_around|].
  intros g inp f <- Hbody Hne.
  exact (proj2 (loop_body_length_changed g inp f Hbody Hne)).
Qed.

(** *** The loop goes on: no undefined behaviour from a sound state *)

Lemma extend_snake_overflow s :
  length s = INT_MAX -> extend_snake indeterminate s = Undefined SignedOverflow.
Proof.
  intros Hlen. unfold extend_snake, int_add.
  erewrite run_bind by apply run_get_length.
  apply run_bind_undefined, run_checked_overflow.
  rewrite Hlen. unfold in_int, INT_MAX. lia.
Qed.

Hypothesis screen_x : 0 <= max_x <= INT_MAX.
Hypothesis screen_y : 0 <= max_y <= INT_MAX.

Lemma wrap_coordinate_sound limit v :
  0 <= limit <= INT_MAX -> in_int v ->
  INT_MIN < wrap_coordinate limit v < INT_MAX.
Proof.
  unfold wrap_coordinate, in_int, INT_MIN, INT_MAX. intros Hl Hv.
  destruct (Z.leb_spec v 0); [lia|].
  destruct (Z.geb_spec v (limit - 1)); lia.
Qed.

(** Moving and wrapping from a sound snake. *)
Lemma run_move_and_wrap s d :
  sound s ->
  exists s0 s1 h1,
    update_snake d s = Ok (tt, s0) /\
    wrap_around max_x max_y s0 = Ok (tt, s1) /\
    length s1 = length s /\ sound s1 /\
    segment s1 0 = Some h1 /\
    (3 <= max_x -> 1 <= h1.1 <= max_x - 2) /\
    (3 <= max_y -> 1 <= h1.2 <= max_y - 2).
Proof.
  intros (Hwf & Hlen & h & Hh & Hhx & Hhy).
  assert (Hmove : can_move d h).
  { unfold can_move, in_int. destruct d; cbn; lia. }
  destruct (run_update_snake s d h Hwf Hlen Hh Hmove)
    as (s0 & Hupd & (Hl & Lx & Ly) & _ & Hnew).
  assert (Hin : in_int (displace d h).1 /\ in_int (displace d h).2).
  { unfold in_int. destruct d; cbn; lia. }
  destruct (displace d h) as [px py]. cbn [fst snd] in Hin.
  pose proof Hnew as (_ & Hx0 & Hy0)%segment_Some. simpl in Hx0, Hy0.
  pose proof (lookup_lt_Some _ _ _ Hx0) as Lx0.
  pose proof (lookup_lt_Some _ _ _ Hy0) as Ly0.
  set (h1 := (wrap_coordinate max_x px, wrap_coordinate max_y py)).
  eexists s0, _, h1. split; [exact Hupd|].
  split.
  { apply (run_wrap_around s0 max_x max_y px py);
      [apply dimension_of_screen, screen_x | apply dimension_of_screen, screen_y
      | exact Hx0 | exact Hy0]. }
  assert (Hseg : segment
    (mkSnake (<[0%nat := h1.1]> (x s0)) (<[0%nat := h1.2]> (y s0)) (length s0)) 0
    = Some h1).
  { apply segment_Some. cbn [x y].
    split; [lia | split; apply list_lookup_insert_eq; lia]. }
  split; [exact Hl|]. split; [|split; [exact Hseg|]].
  - split.
    { destruct Hwf as (? & ? & ?). unfold well_formed. cbn [x y length].
      rewrite !length_insert, Hl, Lx, Ly. auto. }
    split; [cbn [length]; lia|].
    exists h1. split; [exact Hseg|]. cbn [fst snd].
    split; apply wrap_coordinate_sound; tauto.
  - cbn [fst snd]. split; intros; apply wrap_coordinate_interior; lia.
Qed.

(** Growing a sound snake. *)
Lemma run_extend_sound s :
  sound s -> length s < INT_MAX ->
  exists s', extend_snake indeterminate s = Ok (tt, s') /\
             sound s' /\ segment s' 0 = segment s 0.
Proof.
  intros (Hwf & Hlen & h & Hh & Hhx & Hhy) Hmax.
  destruct (run_extend_snake indeterminate s Hwf Hlen Hmax)
    as (s' & tail & Hrun & _ & _ & Hl & Lx & Ly & Hold).
  exists s'. split; [exact Hrun|]. split; [|apply Hold; lia].
  split.
  { destruct Hwf as (Hint & _). unfold well_formed, in_int in *. lia. }
  split; [lia|]. exists h. rewrite Hold by lia. auto.
Qed.

(** From a sound state an iteration whose result is defined leaves a sound
    state, with the head inside the border whenever the wrap step ran. *)
Lemma loop_body_sound g inp f :
  sound (snake g) ->
  loop_body indeterminate max_x max_y g inp = Ok f ->
  sound (snake (game_of f)) /\
  (quit_key inp <> char_q -> 3 <= max_x -> 3 <= max_y ->
   exists h, segment (snake (game_of f)) 0 = Some h /\
             1 <= h.1 <= max_x - 2 /\ 1 <= h.2 <= max_y - 2).
Proof.
  intros Hsound
    [[Hq ->]|(Hq & s0 & s1 & _ & Hupd & Hwrap & Hrest)]%loop_body_Ok_inv.
  { split; [exact Hsound | contradiction]. }
  destruct (run_move_and_wrap (snake g) (current_direction g) Hsound)
    as (s0' & s1' & h1 & Hupd' & Hwrap' & Hl & Hs1 & Hh1 & Hix & Hiy).
  rewrite Hupd' in Hupd. injection Hupd as <-.
  rewrite Hwrap' in Hwrap. injection Hwrap as <-.
  destruct Hrest as [[_ ->]|(_ & last & s2 & _ & _ & Hgrow & ->)];
    cbn [game_of snake].
  { split; [exact Hs1|]. intros _ Hx Hy. exists h1. auto. }
  unfold growth in Hgrow.
  destruct (current_time inp - last_extend_time g >=? EXTEND_INTERVAL).
  - apply bind_Ok_inv in Hgrow as ([] & s2' & Hext & [= _ <-]).
    destruct (Z_lt_le_dec (length s1') INT_MAX) as [Hlt|Hge].
    + destruct (run_extend_sound s1' Hs1 Hlt) as (s2 & Hext' & Hs2 & Hhead).
      rewrite Hext' in Hext. injection Hext as <-.
      split; [exact Hs2|]. intros _ Hx Hy. exists h1. rewrite Hhead. auto.
    + rewrite extend_snake_overflow in Hext; [discriminate|].
      destruct Hs1 as ((Hint & _) & _). unfold in_int in Hint. lia.
  - injection Hgrow as _ <-.
    split; [exact Hs1|]. intros _ Hx Hy. exists h1. auto.
Qed.


Lemma game_start_defined uninit start_time :
  exists g, game_start indeterminate max_x max_y uninit start_time = Ok g /\
            sound (snake g).
Proof.
  assert (Hmx : in_int max_x) by (unfold in_int, INT_MIN; lia).
  unfold game_start. rewrite run_init_snake by exact Hmx.
  eexists. split; [reflexivity|]. cbn [snake].
  split.
  { unfold well_formed, in_int, INT_MIN, INT_MAX, INITIAL_SNAKE_LENGTH.
    cbn [x y length]. rewrite length_replicate. cbn [List.length]. lia. }
  split; [unfold INITIAL_SNAKE_LENGTH; cbn [length]; lia|].
  eexists. split; [reflexivity|]. cbn [fst snd].
  pose proof (Z.quot_pos max_x 2 ltac:(lia) ltac:(lia)).
  pose proof (Z.quot_pos max_y 2 ltac:(lia) ltac:(lia)).
  pose proof (Z.quot_le_upper_bound max_x 2 max_x ltac:(lia) ltac:(lia)).
  pose proof (Z.quot_le_upper_bound max_y 2 max_y ltac:(lia) ltac:(lia)).
  pose proof (Z.quot_lt max_x 2).
  pose proof (Z.quot_lt max_y 2).
  unfold INT_MIN, INT_MAX in *.
  lia.
Qed.

Lemma reachable_sound f :
  reachable indeterminate max_x max_y f -> sound (snake (game_of f)).
Proof.
  induction 1 as [uninit start_time g Hstart | g inp f _ IH Hbody].
  - destruct (game_start_defined uninit start_time) as (g' & Hg' & Hs).
    rewrite Hg' in Hstart. injection Hstart as <-. exact Hs.
  - exact (proj1 (loop_body_sound g inp f IH Hbody)).
Qed.

(** C7. With screen bounds of at least 4, the wraparound step returns and
    leaves the head strictly inside the border: [1 <= x <= max_x-2] and
    [1 <= y <= max_y-2], so neither 0 nor [max-1]; and so it is in the
    state that an iteration of the loop leaves, once it has gone past the
    quit test and through the wrap. *)
Theorem head_interior_after_wrap :
  4 <= max_x -> 4 <= max_y ->
  (forall s h,
     segment s 0 = Some h ->
     exists s' h',
       wrap_around max_x max_y s = Ok (tt, s') /\
       segment s' 0 = Some h' /\
       (1 <= h'.1 <= max_x - 2 /\ 1 <= h'.2 <= max_y - 2) /\
       (h'.1 <> 0 /\ h'.1 <> max_x - 1 /\ h'.2 <> 0 /\ h'.2 <> max_y - 1)) /\
  (forall g inp f,
     reachable indeterminate max_x max_y (Continue g) ->
     quit_key inp <> char_q ->
     loop_body indeterminate max_x max_y g inp = Ok f ->
     exists h',
       segment (snake (game_of f)) 0 = Some h' /\
       1 <= h'.1 <= max_x - 2 /\ 1 <= h'.2 <= max_y - 2).
Proof.
  intros Hmx Hmy. split.
  - intros s [hx hy] Hh.
    apply segment_Some in Hh as (_ & Hx & Hy). simpl in Hx, Hy.
    pose proof (lookup_lt_Some _ _ _ Hx) as Lx.
    pose proof (lookup_lt_Some _ _ _ Hy) as Ly.
    pose proof (wrap_coordinate_interior max_x hx ltac:(lia)) as Ix.
    pose proof (wrap_coordinate_interior max_y hy ltac:(lia)) as Iy.
    eexists _, (wrap_coordinate max_x hx, wrap_coordinate max_y hy).
    split.
    { apply (run_wrap_around s max_x max_y hx hy);
        try assumption; apply dimension_of_screen; assumption. }
    split.
    { apply segment_Some. cbn [x y].
      split; [lia|split; apply list_lookup_insert_eq; lia]. }
    cbn [fst snd]. lia.
  - intros g inp f Hreach%reachable_sound Hq Hbody. cbn [game_of] in Hreach.
    destruct (loop_body_sound g inp f Hreach Hbody) as [_ Hinside].
    apply Hinside; [exact Hq | lia | lia].
Qed.

End Loop.

(** ** The code on the scenarios of the specification *)

Example update_snake_left :
  update_snake DIR_LEFT (mkSnake [5; 6; 7] [3; 3; 3] 3)
    = Ok (tt, mkSnake [4; 5; 6] [3; 3; 3] 3).
Proof. reflexivity. Qed.

Example update_snake_up :
  update_snake DIR_UP (mkSnake [5; 6; 7] [3; 3; 3] 3)
    = Ok (tt, mkSnake [5; 5; 6] [2; 3; 3] 3).
Proof. reflexivity. Qed.

Example update_snake_at_INT_MIN :
  update_snake DIR_UP (mkSnake [5] [INT_MIN] 1) = Undefined SignedOverflow.
Proof. reflexivity. Qed.

Example update_snake_short_array :
  update_snake DIR_UP (mkSnake [5; 6] [3; 3] 3) = Undefined OutOfBounds.
Proof. reflexivity. Qed.

Example check_collision_distinct :
  check_collision (mkSnake [5; 6; 7] [5; 5; 5] 3)
    = Ok (false, mkSnake [5; 6; 7] [5; 5; 5] 3).
Proof. reflexivity. Qed.

Example extend_snake_tail_10_5 :
  extend_snake 0 (mkSnake [8; 9; 10] [5; 5; 5] 3)
    = Ok (tt, mkSnake [8; 9; 10; 10] [5; 5; 5; 5] 4).
Proof. reflexivity. Qed.

Example reversal_of_two_segments :
  (update_snake DIR_RIGHT;; wrap_around 80 24;; check_collision)
    (mkSnake [10; 11] [5; 5] 2)
    = Ok (false, mkSnake [11; 10] [5; 5] 2).
Proof. reflexivity. Qed.

(** The end-to-end scenario on an 80 by 24 terminal: one tick to the left
    before five seconds have passed, then a tick after them. *)
Example end_to_end :
  main (curses := ncurses) 0 80 24 (mkSnake [] [] 0) 1000
    [mkInput (-1) 1000 (-1)]
    = Ok (mkGame (mkSnake [39; 40; 41; 42; 43] [12; 12; 12; 12; 12] 5)
            DIR_LEFT false 1000) /\
  main (curses := ncurses) 0 80 24 (mkSnake [] [] 0) 1000
    [mkInput (-1) 1000 (-1); mkInput (-1) 1005 (-1)]
    = Ok (mkGame (mkSnake [38; 39; 40; 41; 42; 42] [12; 12; 12; 12; 12; 12] 6)
            DIR_LEFT false 1005).
Proof. split; reflexivity. Qed.

(** An arrow key that the [getch] at the top of the loop reads is compared
    with 'q' and dropped; only the key read in [get_new_direction] turns
    the snake. *)
Example key_read_by_quit_test :
  main (curses := ncurses) 0 80 24 (mkSnake [] [] 0) 1000
    [mkInput 259 1000 (-1)]
    = Ok (mkGame (mkSnake [39; 40; 41; 42; 43] [12; 12; 12; 12; 12] 5)
            DIR_LEFT false 1000).
Proof. reflexivity. Qed.

(** ** Worked instances

    Each theorem above applied to a concrete snake, with its hypotheses
    checked by evaluation. *)

Lemma update_snake_postcondition_witness :
  exists s' h',
    update_snake DIR_LEFT (mkSnake [5; 6; 7] [3; 3; 3] 3) = Ok (tt, s') /\
    (forall i, 1 <= i <= 3 - 1 ->
       exists p, segment (mkSnake [5; 6; 7] [3; 3; 3] 3) (i - 1) = Some p /\
                 segment s' i = Some p) /\
    segment s' 0 = Some h' /\
    (h'.1 = 5 - 1 /\ h'.2 = 3).
Proof.
  apply (update_snake_postcondition (mkSnake [5; 6; 7] [3; 3; 3] 3) DIR_LEFT (5, 3)).
  - unfold well_formed, in_int, INT_MIN, INT_MAX. simpl. lia.
  - simpl. lia.
  - reflexivity.
  - unfold can_move, in_int, INT_MIN, INT_MAX. simpl. lia.
Defined.

Lemma wrap_around_head_only_witness :
  exists s',
    wrap_around 20 10 (mkSnake [0; 1; 2] [9; 9; 9] 3) = Ok (tt, s') /\
    segment s' 0 = Some (18, 1) /\
    (forall i, i <> 0 ->
       segment s' i = segment (mkSnake [0; 1; 2] [9; 9; 9] 3) i) /\
    length s' = 3.
Proof.
  destruct (wrap_around_head_only (mkSnake [0; 1; 2] [9; 9; 9] 3) 20 10 (0, 9))
    as (s' & Hrun & Hhead & _ & _ & _ & _ & _ & Hrest & Hlen & _).
  - unfold dimension, in_int, INT_MIN, INT_MAX. lia.
  - unfold dimension, in_int, INT_MIN, INT_MAX. lia.
  - reflexivity.
  - exists s'. split; [exact Hrun|]. split; [exact Hhead|].
    split; [exact Hrest | exact Hlen].
Defined.

Lemma check_collision_correct_witness :
  exists b,
    check_collision (mkSnake [5; 6; 5] [5; 5; 5] 3)
      = Ok (b, mkSnake [5; 6; 5] [5; 5; 5] 3) /\
    (b = true <->
     exists i, 1 <= i <= 3 - 1 /\ hits (mkSnake [5; 6; 5] [5; 5; 5] 3) i).
Proof.
  apply (check_collision_correct (mkSnake [5; 6; 5] [5; 5; 5] 3)).
  unfold well_formed, in_int, INT_MIN, INT_MAX. simpl. lia.
Defined.

Lemma extend_snake_appends_tail_witness :
  exists s' tail,
    extend_snake 0 (mkSnake [8; 9; 10] [5; 5; 5] 3) = Ok (tt, s') /\
    segment (mkSnake [8; 9; 10] [5; 5; 5] 3) (3 - 1) = Some tail /\
    segment s' 3 = Some tail /\
    length s' = 3 + 1 /\
    Z.of_nat (List.length (x s')) = 3 + 1 /\
    Z.of_nat (List.length (y s')) = 3 + 1 /\
    (forall i, 0 <= i < 3 ->
       segment s' i = segment (mkSnake [8; 9; 10] [5; 5; 5] 3) i).
Proof.
  apply (extend_snake_appends_tail 0 (mkSnake [8; 9; 10] [5; 5; 5] 3)).
  - unfold well_formed, in_int, INT_MIN, INT_MAX. simpl. lia.
  - simpl. lia.
  - unfold INT_MAX. simpl. lia.
Defined.

Lemma single_segment_no_collision_witness :
  check_collision (mkSnake [7] [4] 1) = Ok (false, mkSnake [7] [4] 1).
Proof.
  apply (single_segment_no_collision (mkSnake [7] [4] 1)). reflexivity.
Defined.

Lemma init_snake_layout_witness :
  exists s,
    init_snake 0 80 24 (mkSnake [] [] 0) = Ok (tt, s) /\
    length s = 5 /\
    segment s 0 = Some (40, 12) /\ segment s 4 = Some (44, 12).
Proof.
  destruct (init_snake_layout 0 80 24 (mkSnake [] [] 0))
    as (s & Hrun & Hlen & _ & _ & _ & Hseg & _ & Hhead).
  - unfold in_int, INT_MIN, INT_MAX. lia.
  - exists s. split; [exact Hrun|]. split; [exact Hlen|].
    split; [exact Hhead | apply (Hseg 4); lia].
Defined.

Lemma frame_properties_witness :
  length (mkSnake [4; 5; 6] [3; 3; 3] 3) = 3 /\
  mkSnake [4; 5; 6] [3; 3; 3] 3 = mkSnake [4; 5; 6] [3; 3; 3] 3 /\
  (length (mkSnake [5; 6; 7; 7] [3; 3; 3; 3] 4) = 3 + 1 /\
   length (mkSnake [5; 6; 7; 7] [3; 3; 3; 3] 4) <> 3).
Proof.
  pose proof (frame_properties (curses := ncurses) 0 80 24
                (mkSnake [5; 6; 7] [3; 3; 3] 3))
    as (Hupdate & _ & Hextend & _).
  pose proof (frame_properties (curses := ncurses) 0 80 24
                (mkSnake [4; 5; 6] [3; 3; 3] 3))
    as (_ & Hcheck & _).
  split; [exact (Hupdate DIR_LEFT (mkSnake [4; 5; 6] [3; 3; 3] 3) eq_refl)|].
  split; [exact (Hcheck false (mkSnake [4; 5; 6] [3; 3; 3] 3) eq_refl)|].
  exact (Hextend (mkSnake [5; 6; 7; 7] [3; 3; 3; 3] 4) eq_refl).
Defined.

Lemma length_invariant_witness :
  length (snake start_80_24) = INITIAL_SNAKE_LENGTH /\
  (length (snake grown_80_24) = length (snake start_80_24) \/
   length (snake grown_80_24) = length (snake start_80_24) + 1) /\
  length (snake start_80_24) <= length (snake grown_80_24) /\
  1 <= length (snake grown_80_24).
Proof.
  destruct (length_invariant (curses := ncurses) 0 80 24)
    as ((_ & Hstart) & Htick & Hrun & Hreach & _).
  assert (Hbody : loop_body (curses := ncurses) 0 80 24 start_80_24
                    (mkInput (-1) 1005 (-1)) = Ok (Continue grown_80_24))
    by reflexivity.
  split; [exact (Hstart (mkSnake [] [] 0) 1000 start_80_24 eq_refl)|].
  split; [exact (Htick start_80_24 (mkInput (-1) 1005 (-1))
                   (Continue grown_80_24) Hbody)|].
  split; [exact (Hrun [mkInput (-1) 1005 (-1)] start_80_24 grown_80_24 eq_refl)|].
  apply (Hreach (Continue grown_80_24)).
  apply (reach_iteration 0 80 24 start_80_24 (mkInput (-1) 1005 (-1))).
  - apply (reach_start 0 80 24 (mkSnake [] [] 0) 1000). reflexivity.
  - exact Hbody.
Defined.

Lemma head_interior_after_wrap_witness :
  (exists s' h',
     wrap_around 80 24 (mkSnake [0; 1; 2] [24; 24; 24] 3) = Ok (tt, s') /\
     segment s' 0 = Some h' /\
     (1 <= h'.1 <= 80 - 2 /\ 1 <= h'.2 <= 24 - 2) /\
     (h'.1 <> 0 /\ h'.1 <> 80 - 1 /\ h'.2 <> 0 /\ h'.2 <> 24 - 1)) /\
  (exists h',
     segment (snake grown_80_24) 0 = Some h' /\
     1 <= h'.1 <= 80 - 2 /\ 1 <= h'.2 <= 24 - 2).
Proof.
  destruct (head_interior_after_wrap (curses := ncurses) 0 80 24)
    as [Hwrap Hloop].
  - unfold INT_MAX. lia.
  - unfold INT_MAX. lia.
  - lia.
  - lia.
  - split.
    + apply (Hwrap (mkSnake [0; 1; 2] [24; 24; 24] 3) (0, 24)). reflexivity.
    + apply (Hloop start_80_24 (mkInput (-1) 1005 (-1)) (Continue grown_80_24)).
      * apply (reach_start 0 80 24 (mkSnake [] [] 0) 1000). reflexivity.
      * unfold char_q. simpl. lia.
      * reflexivity.
Defined.

Lemma no_reversal_guard_witness :
  get_new_direction (curses := ncurses) DIR_LEFT 261 = DIR_RIGHT /\
  get_new_direction (curses := ncurses) DIR_LEFT 113 = DIR_LEFT /\
  exists s',
    update_snake DIR_RIGHT (snake reversing) = Ok (tt, s') /\
    wrap_around 80 24 s' = Ok (tt, s') /\
    check_collision s' = Ok (true, s') /\
    loop_body (curses := ncurses) 0 80 24 reversing (mkInput (-1) 1001 (-1))
      = Ok (Break (mkGame s' DIR_RIGHT true 1000)).
Proof.
  destruct (no_reversal_guard (curses := ncurses) 0 DIR_LEFT 113)
    as (_ & Hopposite & Hother & _ & Hcollide).
  split; [exact Hopposite|].
  split.
  { apply Hother. simpl. rewrite !elem_of_cons, elem_of_nil. lia. }
  apply (Hcollide reversing (mkInput (-1) 1001 (-1)) 80 24 (10, 5)).
  - unfold well_formed, in_int, INT_MIN, INT_MAX. simpl. lia.
  - simpl. lia.
  - intros i Hi. simpl in Hi.
    assert (i = 0 \/ i = 1 \/ i = 2) as [->|[->| ->]] by lia; reflexivity.
  - reflexivity.
  - unfold char_q. simpl. lia.
  - unfold dimension, in_int, INT_MIN, INT_MAX. lia.
  - unfold dimension, in_int, INT_MIN, INT_MAX. lia.
  - simpl. lia.
  - simpl. lia.
Defined.

(** * Further properties of the code *)

(** ** [update_snake]: the arrays after the call *)

Lemma shifted_explicit n old new v :
  shifted n old new -> old !! 0%nat = Some v -> (n < List.length old)%nat ->
  new = v :: take n old ++ drop (S n) old.
Proof.
  intros [Hlen Hshift] Hv Hn. apply list_eq. intros [|j].
  - rewrite Hshift. case_decide; [lia | exact Hv].
  - rewrite Hshift, lookup_cons. case_decide.
    + rewrite lookup_app_l by (rewrite length_take; lia).
      rewrite lookup_take_lt by lia. f_equal. lia.
    + rewrite lookup_app_r by (rewrite length_take; lia).
      rewrite length_take, lookup_drop. f_equal. lia.
Qed.

Lemma run_update_snake_explicit (s : Snake) (d : Direction) (h : Z * Z) :
  well_formed s -> 1 <= length s -> segment s 0 = Some h -> can_move d h ->
  update_snake d s =
    Ok (tt, mkSnake (advanced (Z.to_nat (length s)) (displace d h).1 (x s))
              (advanced (Z.to_nat (length s)) (displace d h).2 (y s))
              (length s)).
Proof.
  intros Hwf Hlen Hhead Hmove.
  pose proof Hwf as (Hint & Hx & Hy). destruct h as [hx hy].
  apply segment_Some in Hhead as (_ & Hhx & Hhy). simpl in Hhx, Hhy.
  destruct (run_shift_loop (Z.to_nat (length s - 1)) s)
    as (s1 & Hloop & Hlen1 & Sx & Sy); [lia | lia |].
  apply (shifted_explicit _ _ _ hx) in Sx; [|exact Hhx|lia].
  apply (shifted_explicit _ _ _ hy) in Sy; [|exact Hhy|lia].
  replace (S (Z.to_nat (length s - 1))) with (Z.to_nat (length s)) in Sx, Sy by lia.
  unfold advanced.
  replace (Z.to_nat (length s) - 1)%nat with (Z.to_nat (length s - 1)) by lia.
  unfold update_snake.
  erewrite run_bind by apply run_get_length.
  erewrite run_bind by (apply run_checked; unfold in_int, INT_MIN in *; lia).
  erewrite run_bind by exact Hloop.
  destruct s1 as [xs1 ys1 l1]. cbn [x y length] in *. subst xs1 ys1 l1.
  destruct d; simpl in Hmove;
    [ erewrite run_bind by (apply (run_load_y 0); [lia | reflexivity])
    | erewrite run_bind by (apply (run_load_y 0); [lia | reflexivity])
    | erewrite run_bind by (apply (run_load_x 0); [lia | reflexivity])
    | erewrite run_bind by (apply (run_load_x 0); [lia | reflexivity]) ];
    erewrite run_bind by (apply run_checked; exact Hmove);
    [ rewrite run_store_y by (cbn [y List.length]; lia)
    | rewrite run_store_y by (cbn [y List.length]; lia)
    | rewrite run_store_x by (cbn [x List.length]; lia)
    | rewrite run_store_x by (cbn [x List.length]; lia) ];
    reflexivity.
Qed.

(** X1. [update_snake] rewrites the first [length] cells of each array and
    nothing else: they become the head's new value followed by the old
    first [length-1] cells, so that the old tail's coordinate is dropped;
    the cells from index [length] on, the allocation and [length] are as
    they were. *)
Theorem update_snake_arrays (s : Snake) (d : Direction) (h : Z * Z) :
  well_formed s -> 1 <= length s -> segment s 0 = Some h -> can_move d h ->
  exists s',
    update_snake d s = Ok (tt, s') /\
    take (Z.to_nat (length s)) (x s')
      = (displace d h).1 :: take (Z.to_nat (length s) - 1) (x s) /\
    take (Z.to_nat (length s)) (y s')
      = (displace d h).2 :: take (Z.to_nat (length s) - 1) (y s) /\
    drop (Z.to_nat (length s)) (x s') = drop (Z.to_nat (length s)) (x s) /\
    drop (Z.to_nat (length s)) (y s') = drop (Z.to_nat (length s)) (y s) /\
    List.length (x s') = List.length (x s) /\
    List.length (y s') = List.length (y s) /\
    length s' = length s.
Proof.
  intros Hwf Hlen Hhead Hmove. pose proof Hwf as (_ & Hx & Hy).
  eexists. split; [apply run_update_snake_explicit; eassumption|].
  cbn [x y length]. unfold advanced.
  remember (Z.to_nat (length s)) as n eqn:En.
  assert (Hn : (1 <= n)%nat) by lia.
  assert (Hnx : (n <= List.length (x s))%nat) by lia.
  assert (Hny : (n <= List.length (y s))%nat) by lia.
  assert (Hshape : forall (v : Z) (l : list Z), (n <= List.length l)%nat ->
    take n (v :: take (n - 1) l ++ drop n l) = v :: take (n - 1) l /\
    drop n (v :: take (n - 1) l ++ drop n l) = drop n l /\
    List.length (v :: take (n - 1) l ++ drop n l) = List.length l).
  { intros v l Hl. destruct n as [|m]; [lia|].
    replace (S m - 1)%nat with m by lia.
    cbn [take drop List.length].
    rewrite take_app_length', drop_app_length' by (rewrite length_take; lia).
    rewrite length_app, length_take, length_drop.
    split; [reflexivity|]. split; [reflexivity|]. lia. }
  destruct (Hshape (displace d h).1 (x s) Hnx) as (Tx & Dx & Lx).
  destruct (Hshape (displace d h).2 (y s) Hny) as (Ty & Dy & Ly).
  auto 10.
Qed.

Lemma run_load_x_out i s :
  ~ 0 <= i < Z.of_nat (List.length (x s)) -> load_x i s = Undefined OutOfBounds.
Proof.
  intros H. unfold load_x. destruct (in_bounds (x s) i) eqn:E; [|reflexivity].
  now apply in_bounds_spec in E.
Qed.

(** X2. On a well-formed snake of length at least 1 whose head cells are
    [int]s, [update_snake] is undefined exactly when the head sits at the
    end of the [int] range it is moved towards ([y = INT_MIN] going up,
    [y = INT_MAX] going down, [x = INT_MIN] going left, [x = INT_MAX] going
    right); the outcome is then a signed overflow. *)
Theorem update_snake_defined_iff (s : Snake) (d : Direction) (h : Z * Z) :
  well_formed s -> 1 <= length s -> segment s 0 = Some h ->
  in_int h.1 -> in_int h.2 ->
  let at_end :=
    match d with
    | DIR_UP => h.2 = INT_MIN
    | DIR_DOWN => h.2 = INT_MAX
    | DIR_LEFT => h.1 = INT_MIN
    | DIR_RIGHT => h.1 = INT_MAX
    end in
  ((exists s', update_snake d s = Ok (tt, s')) <-> ~ at_end) /\
  (at_end -> update_snake d s = Undefined SignedOverflow).
Proof.
  intros Hwf Hlen Hhead H1 H2 at_end.
  assert (Hcan : can_move d h <-> ~ at_end).
  { subst at_end. unfold can_move, in_int in *. destruct d; cbn; lia. }
  assert (Hover : at_end -> update_snake d s = Undefined SignedOverflow).
  { intros Hend. apply (update_snake_overflow s d h); try assumption.
    rewrite Hcan. tauto. }
  split; [|exact Hover]. split.
  - intros [s' Hrun] Hend. rewrite (Hover Hend) in Hrun. discriminate.
  - intros Hmove%Hcan.
    destruct (run_update_snake s d h Hwf Hlen Hhead Hmove) as (s' & Hrun & _).
    eauto.
Qed.

(** ** [extend_snake]: the arrays after the call, and when it is defined *)

Section FurtherGrowth.

Variable indeterminate : Z.

Lemma run_extend_snake_explicit (s : Snake) :
  well_formed s -> 1 <= length s -> length s < INT_MAX ->
  exists tx ty,
    segment s (length s - 1) = Some (tx, ty) /\
    extend_snake indeterminate s =
      Ok (tt, mkSnake (take (Z.to_nat (length s)) (x s) ++ [tx])
                (take (Z.to_nat (length s)) (y s) ++ [ty])
                (length s + 1)).
Proof.
  intros Hwf Hlen Hmax. pose proof Hwf as (_ & Hx & Hy).
  destruct (run_extend_snake indeterminate s Hwf Hlen Hmax)
    as (s' & [tx ty] & Hrun & Htail & Hnew & Hl & Lx & Ly & Hold).
  exists tx, ty. split; [exact Htail|]. rewrite Hrun. do 2 f_equal.
  apply segment_Some in Hnew as (_ & Hnx & Hny).
  assert (Hcells : forall i : nat, (i < Z.to_nat (length s))%nat ->
            x s' !! i = x s !! i /\ y s' !! i = y s !! i).
  { intros i Hi.
    destruct (segment_allocated s (Z.of_nat i) Hwf) as [[a b] Hp]; [lia|].
    pose proof (Hold (Z.of_nat i) ltac:(lia)) as Hp'. rewrite Hp in Hp'.
    apply segment_Some in Hp as (_ & Ha & Hb).
    apply segment_Some in Hp' as (_ & Ha' & Hb').
    rewrite Nat2Z.id in *. split; congruence. }
  assert (Hshape : forall (l' l : list Z) (v : Z),
    Z.of_nat (List.length l') = length s + 1 ->
    length s <= Z.of_nat (List.length l) ->
    l' !! Z.to_nat (length s) = Some v ->
    (forall i : nat, (i < Z.to_nat (length s))%nat -> l' !! i = l !! i) ->
    l' = take (Z.to_nat (length s)) l ++ [v]).
  { intros l' l v Hl' Hll Hv Hsame. apply list_eq. intros i.
    destruct (Nat.lt_trichotomy i (Z.to_nat (length s))) as [Hi|[->|Hi]].
    - rewrite lookup_app_l by (rewrite length_take; lia).
      rewrite lookup_take_lt by lia. apply Hsame, Hi.
    - rewrite lookup_app_r by (rewrite length_take; lia).
      rewrite length_take, Hv.
      replace (Z.to_nat (length s) - Z.to_nat (length s) `min` List.length l)%nat
        with 0%nat by lia.
      reflexivity.
    - rewrite (lookup_ge_None_2 l') by lia.
      symmetry. apply lookup_ge_None_2.
      rewrite length_app, length_take. cbn [List.length]. lia. }
  destruct s' as [xs' ys' l']. cbn [x y length] in *. subst l'.
  f_equal.
  - apply Hshape; try assumption. intros i Hi. apply Hcells, Hi.
  - apply Hshape; try assumption. intros i Hi. apply Hcells, Hi.
Qed.

Lemma extend_snake_no_tail (s : Snake) :
  well_formed s -> INT_MIN < length s <= 0 ->
  extend_snake indeterminate s = Undefined OutOfBounds.
Proof.
  intros (Hint & _) Hlen. unfold extend_snake, int_add, int_sub.
  assert (H1 : in_int (length s + 1))
    by (unfold in_int, INT_MIN, INT_MAX in *; lia).
  assert (H0 : in_int (length s - 1))
    by (unfold in_int, INT_MIN, INT_MAX in *; lia).
  run_by ltac:(apply run_get_length).
  run_by ltac:(apply run_checked; exact H1).
  run_by ltac:(reflexivity).
  run_by ltac:(apply run_get_length).
  run_by ltac:(apply run_checked; exact H1).
  run_by ltac:(reflexivity).
  run_by ltac:(apply run_get_length).
  run_by ltac:(apply run_checked; exact H0).
  apply run_bind_undefined, run_load_x_out. lia.
Qed.

Lemma extend_snake_at_INT_MIN (s : Snake) :
  length s = INT_MIN ->
  extend_snake indeterminate s = Undefined SignedOverflow.
Proof.
  intros Hlen. unfold extend_snake, int_add, int_sub.
  assert (H1 : in_int (length s + 1))
    by (rewrite Hlen; unfold in_int, INT_MIN, INT_MAX; lia).
  run_by ltac:(apply run_get_length).
  run_by ltac:(apply run_checked; exact H1).
  run_by ltac:(reflexivity).
  run_by ltac:(apply run_get_length).
  run_by ltac:(apply run_checked; exact H1).
  run_by ltac:(reflexivity).
  run_by ltac:(apply run_get_length).
  apply run_bind_undefined, run_checked_overflow.
  rewrite Hlen. unfold in_int, INT_MIN, INT_MAX. lia.
Qed.

Lemma extend_snake_at_INT_MAX (s : Snake) :
  length s = INT_MAX ->
  extend_snake indeterminate s = Undefined SignedOverflow.
Proof.
  intros Hlen. unfold extend_snake, int_add.
  erewrite run_bind by apply run_get_length.
  apply run_bind_undefined, run_checked_overflow.
  rewrite Hlen. unfold in_int, INT_MAX. lia.
Qed.

(** X3. When [extend_snake] is defined.  On a snake whose arrays hold at
    least [length] cells the call returns exactly when
    [1 <= length < INT_MAX].  With a length of 0 or less it reads the cell
    before the array, [x[length - 1]]: out of bounds (a signed overflow at
    [INT_MIN]); at [INT_MAX] the new length overflows. *)
Theorem extend_snake_defined_iff (s : Snake) :
  well_formed s ->
  ((exists s', extend_snake indeterminate s = Ok (tt, s'))
     <-> 1 <= length s < INT_MAX) /\
  (INT_MIN < length s <= 0 ->
     extend_snake indeterminate s = Undefined OutOfBounds) /\
  (length s = INT_MIN \/ length s = INT_MAX ->
     extend_snake indeterminate s = Undefined SignedOverflow).
Proof.
  intros Hwf. pose proof Hwf as (Hint & _).
  assert (Hlow := extend_snake_no_tail s Hwf).
  assert (Hends : length s = INT_MIN \/ length s = INT_MAX ->
                  extend_snake indeterminate s = Undefined SignedOverflow).
  { intros [H|H]; [apply extend_snake_at_INT_MIN | apply extend_snake_at_INT_MAX];
      exact H. }
  split; [|split; assumption]. split.
  - intros [s' Hrun].
    destruct (Z_lt_le_dec 0 (length s)) as [Hpos|Hneg].
    + destruct (Z_lt_le_dec (length s) INT_MAX) as [Hlt|Hge]; [lia|].
      rewrite Hends in Hrun; [discriminate|]. unfold in_int in Hint. lia.
    + destruct (Z.eq_dec (length s) INT_MIN) as [Hmin|Hmin].
      * rewrite Hends in Hrun; [discriminate | auto].
      * rewrite Hlow in Hrun; [discriminate|]. unfold in_int in Hint. lia.
  - intros [H1 H2].
    destruct (run_extend_snake indeterminate s Hwf H1 H2) as (s' & _ & Hrun & _).
    eauto.
Qed.

End FurtherGrowth.

Lemma extend_snake_fresh (fresh1 fresh2 : Z) (s : Snake) :
  well_formed s -> extend_snake fresh1 s = extend_snake fresh2 s.
Proof.
  intros Hwf. pose proof Hwf as (Hint & _).
  destruct (Z_lt_le_dec 0 (length s)) as [Hpos|Hneg].
  - destruct (Z_lt_le_dec (length s) INT_MAX) as [Hlt|Hge].
    + destruct (run_extend_snake_explicit fresh1 s Hwf ltac:(lia) Hlt)
        as (tx & ty & Ht & ->).
      destruct (run_extend_snake_explicit fresh2 s Hwf ltac:(lia) Hlt)
        as (tx' & ty' & Ht' & ->).
      congruence.
    + rewrite !extend_snake_at_INT_MAX by (unfold in_int in Hint; lia).
      reflexivity.
  - destruct (Z.eq_dec (length s) INT_MIN) as [Hmin|Hmin].
    + rewrite !extend_snake_at_INT_MIN by exact Hmin. reflexivity.
    + rewrite !extend_snake_no_tail
        by (try assumption; unfold in_int in Hint; lia).
      reflexivity.
Qed.

(** X4. What [extend_snake] leaves in the arrays does not depend on what
    the fresh cell of [realloc] holds: on a well-formed snake the outcome
    is the same for any two contents of fresh memory, and when the call
    returns each array is exactly its first [length] cells followed by a
    copy of the tail's cell, an array allocated beyond [length] being
    trimmed. *)
Theorem extend_snake_fresh_memory (fresh1 fresh2 : Z) (s : Snake) :
  well_formed s ->
  extend_snake fresh1 s = extend_snake fresh2 s /\
  (1 <= length s < INT_MAX ->
   exists tx ty,
     segment s (length s - 1) = Some (tx, ty) /\
     extend_snake fresh1 s =
       Ok (tt, mkSnake (take (Z.to_nat (length s)) (x s) ++ [tx])
                 (take (Z.to_nat (length s)) (y s) ++ [ty])
                 (length s + 1))).
Proof.
  intros Hwf. split; [apply extend_snake_fresh, Hwf|].
  intros [H1 H2]. apply run_extend_snake_explicit; assumption.
Qed.

(** ** Growth and the calls around it *)

Lemma well_formed_extended (s s' : Snake) :
  well_formed s -> length s < INT_MAX -> 1 <= length s ->
  length s' = length s + 1 ->
  Z.of_nat (List.length (x s')) = length s + 1 ->
  Z.of_nat (List.length (y s')) = length s + 1 ->
  well_formed s'.
Proof.
  intros (Hint & _) Hmax Hlen Hl Lx Ly.
  unfold well_formed, in_int in *. lia.
Qed.

(** X5. Growing and then moving: after [extend_snake] followed by
    [update_snake] the snake is one longer and every cell it occupied
    before is still occupied, segment [i] holding what segment [i-1] held
    for all [i] of [1..length], the old tail included; without the growth
    the old tail's cell is given up. *)
Theorem extend_then_update_keeps_tail
    (fresh : Z) (s : Snake) (d : Direction) (h : Z * Z) :
  well_formed s -> 1 <= length s -> length s < INT_MAX ->
  segment s 0 = Some h -> can_move d h ->
  exists s2,
    (extend_snake fresh;; update_snake d) s = Ok (tt, s2) /\
    length s2 = length s + 1 /\
    segment s2 0 = Some (displace d h) /\
    (forall i, 1 <= i <= length s -> segment s2 i = segment s (i - 1)) /\
    (exists tail, segment s (length s - 1) = Some tail /\
                  segment s2 (length s) = Some tail).
Proof.
  intros Hwf Hlen Hmax Hhead Hmove.
  destruct (run_extend_snake fresh s Hwf Hlen Hmax)
    as (s1 & tail & Hext & Htail & Hnew & Hl & Lx & Ly & Hold).
  pose proof (well_formed_extended s s1 Hwf Hmax Hlen Hl Lx Ly) as Hwf1.
  assert (Hhead1 : segment s1 0 = Some h) by (rewrite Hold by lia; exact Hhead).
  destruct (run_update_snake s1 d h Hwf1 ltac:(lia) Hhead1 Hmove)
    as (s2 & Hupd & (Hl2 & _) & Hshift & Hnew2).
  assert (Hbody : forall i, 1 <= i <= length s ->
            segment s2 i = segment s (i - 1)).
  { intros i Hi. destruct (Hshift i ltac:(lia)) as (p & Hp1 & Hp2).
    rewrite Hp2, <- Hp1. apply Hold. lia. }
  exists s2. split.
  { erewrite run_bind by exact Hext. exact Hupd. }
  split; [lia|]. split; [exact Hnew2|]. split; [exact Hbody|].
  exists tail. split; [exact Htail|]. rewrite Hbody by lia. exact Htail.
Qed.

Lemma run_check_collision_extended (fresh : Z) (s : Snake) :
  well_formed s -> 1 <= length s -> length s < INT_MAX ->
  exists s' b,
    extend_snake fresh s = Ok (tt, s') /\
    check_collision s = Ok (b, s) /\
    check_collision s' = Ok (b || (length s =? 1), s').
Proof.
  intros Hwf Hlen Hmax.
  destruct (run_extend_snake fresh s Hwf Hlen Hmax)
    as (s' & tail & Hext & Htail & Hnew & Hl & Lx & Ly & Hold).
  pose proof (well_formed_extended s s' Hwf Hmax Hlen Hl Lx Ly) as Hwf'.
  destruct (run_check_collision s Hwf) as (b & Hb & Hiff).
  destruct (run_check_collision s' Hwf') as (b' & Hb' & Hiff').
  exists s', b. split; [exact Hext|]. split; [exact Hb|].
  assert (Hhits : forall i, 1 <= i < length s -> hits s' i <-> hits s i).
  { intros i Hi. unfold hits. rewrite (Hold 0), (Hold i) by lia. tauto. }
  assert (b' = b || (length s =? 1)) as <-; [|exact Hb'].
  apply eq_true_iff_eq. rewrite orb_true_iff, Z.eqb_eq, Hiff', Hiff. split.
  - intros (i & Hi & Hhit).
    destruct (Z.eq_dec (length s) 1) as [H1|H1]; [auto|]. left.
    destruct (Z.eq_dec i (length s)) as [->|Hne].
    + exists (length s - 1). split; [lia|].
      destruct Hhit as (p & Hp0 & Hpn). exists p.
      rewrite <- (Hold 0) by lia. split; [exact Hp0|]. congruence.
    + exists i. split; [lia|]. apply Hhits; [lia | exact Hhit].
  - intros [(i & Hi & Hhit)|H1].
    + exists i. split; [lia|]. apply Hhits; [lia | exact Hhit].
    + exists 1. split; [lia|]. exists tail.
      rewrite (Hold 0) by lia. rewrite H1 in Htail, Hnew.
      split; [exact Htail | exact Hnew].
Qed.

(** X6. [check_collision] after [extend_snake]: the copy of the tail adds
    no collision to a snake of length 2 or more, the verdict is the one
    before the growth; a snake of length 1 collides with itself once grown,
    its head being its tail. *)
Theorem check_collision_after_extend (fresh : Z) (s : Snake) :
  well_formed s -> 1 <= length s -> length s < INT_MAX ->
  exists s' b,
    extend_snake fresh s = Ok (tt, s') /\
    check_collision s = Ok (b, s) /\
    check_collision s' = Ok (b || (length s =? 1), s').
Proof. exact (run_check_collision_extended fresh s). Qed.

(** ** Wraparound as an operation on the head *)

(** Case analysis on the innermost comparison of the goal. *)
Ltac case_comparison :=
  match goal with
  | |- context [?a <=? ?b] =>
      lazymatch a with
      | context [if _ then _ else _] => fail
      | _ => destruct (Z.leb_spec a b)
      end
  | |- context [?a >=? ?b] =>
      lazymatch a with
      | context [if _ then _ else _] => fail
      | _ => destruct (Z.geb_spec a b)
      end
  end.

Lemma wrap_coordinate_idempotent limit v :
  wrap_coordinate limit (wrap_coordinate limit v) = wrap_coordinate limit v.
Proof.
  unfold wrap_coordinate.
  repeat case_comparison; lia.
Qed.

Lemma wrap_coordinate_there_and_back limit v :
  3 <= limit -> 1 <= v <= limit - 2 ->
  wrap_coordinate limit (wrap_coordinate limit (v - 1) + 1) = v /\
  wrap_coordinate limit (wrap_coordinate limit (v + 1) - 1) = v.
Proof.
  intros Hl Hv. unfold wrap_coordinate.
  repeat case_comparison; lia.
Qed.

(** One move of the head and the wrap of [main] that follows it. *)
Lemma run_move_wrap s d h max_x max_y :
  well_formed s -> 1 <= length s -> segment s 0 = Some h -> can_move d h ->
  dimension max_x -> dimension max_y ->
  exists s1,
    (update_snake d;; wrap_around max_x max_y) s = Ok (tt, s1) /\
    well_formed s1 /\ length s1 = length s /\
    List.length (x s1) = List.length (x s) /\
    List.length (y s1) = List.length (y s) /\
    segment s1 0 = Some (wrap_coordinate max_x (displace d h).1,
                         wrap_coordinate max_y (displace d h).2) /\
    (forall i, 1 <= i <= length s - 1 -> segment s1 i = segment s (i - 1)).
Proof.
  intros Hwf Hlen Hhead Hmove Hmx Hmy.
  destruct (run_update_snake s d h Hwf Hlen Hhead Hmove)
    as (s0 & Hupd & (Hl & Lx & Ly) & Hshift & Hnew).
  destruct (displace d h) as [px py]. cbn [fst snd].
  pose proof Hnew as (_ & Hx0 & Hy0)%segment_Some. simpl in Hx0, Hy0.
  pose proof (lookup_lt_Some _ _ _ Hx0) as Lx0.
  pose proof (lookup_lt_Some _ _ _ Hy0) as Ly0.
  eexists. split.
  { erewrite run_bind by exact Hupd.
    apply (run_wrap_around s0 max_x max_y px py); assumption. }
  cbn [x y length]. rewrite !length_insert.
  split.
  { destruct Hwf as (? & ? & ?). unfold well_formed. cbn [x y length].
    rewrite !length_insert, Hl, Lx, Ly. auto. }
  split; [exact Hl|]. split; [exact Lx|]. split; [exact Ly|].
  split.
  { apply segment_Some. cbn [x y].
    split; [lia | split; apply list_lookup_insert_eq; lia]. }
  intros i Hi. destruct (Hshift i Hi) as (p & Hp1 & Hp2).
  rewrite Hp1, <- Hp2. unfold segment. cbn [x y].
  destruct (Z.leb_spec 0 i); [|reflexivity].
  rewrite !list_lookup_insert_ne by lia. reflexivity.
Qed.

(** X7. The wrap of [main] is idempotent: run a second time, on screen
    dimensions from which 2 can be subtracted, it changes nothing. *)
Theorem wrap_around_idempotent (s : Snake) (max_x max_y : Z) (h : Z * Z) :
  dimension max_x -> dimension max_y -> segment s 0 = Some h ->
  exists s',
    wrap_around max_x max_y s = Ok (tt, s') /\
    wrap_around max_x max_y s' = Ok (tt, s') /\
    (wrap_around max_x max_y;; wrap_around max_x max_y) s
      = wrap_around max_x max_y s.
Proof.
  intros Hmx Hmy Hh. destruct h as [hx hy].
  apply segment_Some in Hh as (_ & Hx & Hy). simpl in Hx, Hy.
  pose proof (lookup_lt_Some _ _ _ Hx) as Lx.
  pose proof (lookup_lt_Some _ _ _ Hy) as Ly.
  pose proof (run_wrap_around s max_x max_y hx hy Hmx Hmy Hx Hy) as Hrun.
  assert (Hagain : wrap_around max_x max_y
            (mkSnake (<[0%nat := wrap_coordinate max_x hx]> (x s))
               (<[0%nat := wrap_coordinate max_y hy]> (y s)) (length s))
          = Ok (tt, mkSnake (<[0%nat := wrap_coordinate max_x hx]> (x s))
                      (<[0%nat := wrap_coordinate max_y hy]> (y s)) (length s))).
  { rewrite (run_wrap_around _ max_x max_y (wrap_coordinate max_x hx)
               (wrap_coordinate max_y hy) Hmx Hmy)
      by (cbn [x y]; apply list_lookup_insert_eq; lia).
    cbn [x y length].
    rewrite !list_insert_insert_eq, !wrap_coordinate_idempotent. reflexivity. }
  eexists. split; [exact Hrun|]. split; [exact Hagain|].
  erewrite run_bind by exact Hrun. rewrite Hrun. exact Hagain.
Qed.

(** X8. There and back: from a head strictly inside the border, one move in
    a direction with its wrap, then one move in the opposite direction with
    its wrap, bring the head back to the cell it started from, also when
    the first move went through the border to the other side. *)
Theorem move_there_and_back
    (s : Snake) (d : Direction) (h : Z * Z) (max_x max_y : Z) :
  well_formed s -> 1 <= length s -> segment s 0 = Some h ->
  3 <= max_x <= INT_MAX -> 3 <= max_y <= INT_MAX ->
  1 <= h.1 <= max_x - 2 -> 1 <= h.2 <= max_y - 2 ->
  exists s',
    (update_snake d;; wrap_around max_x max_y;;
     update_snake (opposite d);; wrap_around max_x max_y) s = Ok (tt, s') /\
    segment s' 0 = Some h /\
    length s' = length s.
Proof.
  intros Hwf Hlen Hhead Hmx Hmy Hx Hy.
  assert (Dx : dimension max_x) by (apply dimension_of_screen; lia).
  assert (Dy : dimension max_y) by (apply dimension_of_screen; lia).
  assert (Hmove : can_move d h).
  { unfold can_move, in_int, INT_MIN. destruct d; cbn; lia. }
  destruct (run_move_wrap s d h max_x max_y Hwf Hlen Hhead Hmove Dx Dy)
    as (s1 & Hrun1 & Hwf1 & Hl1 & _ & _ & Hhead1 & _).
  set (h1 := (wrap_coordinate max_x (displace d h).1,
              wrap_coordinate max_y (displace d h).2)) in *.
  pose proof (wrap_coordinate_interior max_x (displace d h).1 ltac:(lia)) as Ix.
  pose proof (wrap_coordinate_interior max_y (displace d h).2 ltac:(lia)) as Iy.
  assert (Hmove1 : can_move (opposite d) h1).
  { unfold can_move, in_int, INT_MIN. subst h1. destruct d; cbn in *; lia. }
  destruct (run_move_wrap s1 (opposite d) h1 max_x max_y Hwf1 ltac:(lia)
              Hhead1 Hmove1 Dx Dy)
    as (s2 & Hrun2 & _ & Hl2 & _ & _ & Hhead2 & _).
  exists s2. split.
  { apply bind_Ok_inv in Hrun1 as ([] & s0 & Hupd & Hwrap).
    erewrite run_bind by exact Hupd.
    erewrite run_bind by exact Hwrap. exact Hrun2. }
  split; [|lia]. rewrite Hhead2. f_equal.
  destruct (wrap_coordinate_there_and_back max_x h.1 ltac:(lia) Hx) as [Lx Rx].
  destruct (wrap_coordinate_there_and_back max_y h.2 ltac:(lia) Hy) as [Ly Ry].
  pose proof (wrap_coordinate_interior max_x h.1 ltac:(lia)) as Jx.
  pose proof (wrap_coordinate_interior max_y h.2 ltac:(lia)) as Jy.
  assert (Sx : wrap_coordinate max_x h.1 = h.1).
  { unfold wrap_coordinate. destruct (Z.leb_spec h.1 0); [lia|].
    destruct (Z.geb_spec h.1 (max_x - 1)); lia. }
  assert (Sy : wrap_coordinate max_y h.2 = h.2).
  { unfold wrap_coordinate. destruct (Z.leb_spec h.2 0); [lia|].
    destruct (Z.geb_spec h.2 (max_y - 1)); lia. }
  subst h1. destruct h as [hx hy]. cbn [fst snd] in *.
  destruct d; cbn [opposite displace fst snd];
    rewrite ?Sx, ?Sy, ?wrap_coordinate_idempotent, ?Lx, ?Rx, ?Ly, ?Ry, ?Sx, ?Sy;
    reflexivity.
Qed.

(** ** The game loop, tick by tick *)

Section FurtherLoop.

Context `{curses : Curses}.
Variable indeterminate : Z.
Variables max_x max_y : Z.





(** *** Iterations from a sound state *)

Hypothesis screen_x : 0 <= max_x <= INT_MAX.
Hypothesis screen_y : 0 <= max_y <= INT_MAX.

Lemma sound_can_move s d :
  sound s -> exists h, segment s 0 = Some h /\ can_move d h.
Proof.
  intros (_ & _ & h & Hh & Hx & Hy). exists h. split; [exact Hh|].
  unfold can_move, in_int. destruct d; cbn; lia.
Qed.

(** What an iteration that goes past the quit test does to a sound snake. *)
Lemma loop_body_sound_inv g inp f :
  sound (snake g) ->
  loop_body indeterminate max_x max_y g inp = Ok f ->
  quit_key inp <> char_q ->
  exists h s1,
    segment (snake g) 0 = Some h /\
    well_formed s1 /\ length s1 = length (snake g) /\
    List.length (x s1) = List.length (x (snake g)) /\
    List.length (y s1) = List.length (y (snake g)) /\
    segment s1 0
      = Some (wrap_coordinate max_x (displace (current_direction g) h).1,
              wrap_coordinate max_y (displace (current_direction g) h).2) /\
    (forall i, 1 <= i <= length (snake g) - 1 ->
       segment s1 i = segment (snake g) (i - 1)) /\
    ((check_collision s1 = Ok (true, s1) /\
      f = Break (mkGame s1 (current_direction g) true (last_extend_time g))) \/
     (check_collision s1 = Ok (false, s1) /\
      current_time inp - last_extend_time g < EXTEND_INTERVAL /\
      f = Continue
            (mkGame s1
               (get_new_direction (current_direction g) (direction_key inp))
               false (last_extend_time g))) \/
     (check_collision s1 = Ok (false, s1) /\
      current_time inp - last_extend_time g >= EXTEND_INTERVAL /\
      exists s2,
        extend_snake indeterminate s1 = Ok (tt, s2) /\
        f = Continue
              (mkGame s2
                 (get_new_direction (current_direction g) (direction_key inp))
                 false (current_time inp)))).
Proof.
  intros Hsound Hbody Hq.
  apply loop_body_Ok_inv in Hbody
    as [[Hq' _]|(_ & s0 & s1 & _ & Hupd & Hwrap & Hrest)]; [contradiction|].
  destruct (sound_can_move (snake g) (current_direction g) Hsound)
    as (h & Hh & Hmove).
  destruct Hsound as (Hwf & Hlen & _).
  destruct (run_move_wrap (snake g) (current_direction g) h max_x max_y
              Hwf Hlen Hh Hmove
              (dimension_of_screen _ screen_x) (dimension_of_screen _ screen_y))
    as (s1' & Hrun & Hwf1 & Hl1 & Lx & Ly & Hhead1 & Hshift).
  erewrite run_bind in Hrun by exact Hupd.
  rewrite Hwrap in Hrun. injection Hrun as <-.
  exists h, s1. repeat (split; [assumption|]).
  destruct Hrest as [[Hc ->]|(Hc & last & s2 & _ & _ & Hgrow & ->)];
    [left; auto|right].
  unfold growth in Hgrow.
  destruct (Z.geb_spec (current_time inp - last_extend_time g) EXTEND_INTERVAL).
  - right. apply bind_Ok_inv in Hgrow as ([] & s2' & Hext & [= <- <-]).
    split; [exact Hc|]. split; [lia|]. eauto.
  - left. injection Hgrow as <- <-. auto.
Qed.

(** X9. One tick on the snake.  In every state of the loop, an iteration
    that goes past the quit test moves the head one cell in the current
    direction, wrapped, and hands every other segment the cell of the one
    before it; when the growth fired in that iteration the snake ends with
    two segments on one cell, the copy of its tail. *)
Theorem tick_moves_snake (g : Game) (inp : Input) (f : flow) :
  reachable indeterminate max_x max_y (Continue g) ->
  quit_key inp <> char_q ->
  loop_body indeterminate max_x max_y g inp = Ok f ->
  exists h,
    segment (snake g) 0 = Some h /\
    segment (snake (game_of f)) 0
      = Some (wrap_coordinate max_x (displace (current_direction g) h).1,
              wrap_coordinate max_y (displace (current_direction g) h).2) /\
    (forall i, 1 <= i <= length (snake g) - 1 ->
       segment (snake (game_of f)) i = segment (snake g) (i - 1)) /\
    (length (snake (game_of f)) = length (snake g) + 1 ->
     segment (snake (game_of f)) (length (snake g))
       = segment (snake (game_of f)) (length (snake g) - 1)).
Proof.
  intros Hreach Hq Hbody.
  pose proof (reachable_sound indeterminate max_x max_y screen_x screen_y
                _ Hreach) as Hsound.
  cbn [game_of] in Hsound. pose proof Hsound as (_ & Hlen & _).
  destruct (loop_body_sound_inv g inp f Hsound Hbody Hq)
    as (h & s1 & Hh & Hwf1 & Hl1 & _ & _ & Hhead1 & Hshift & Hrest).
  exists h. split; [exact Hh|].
  destruct Hrest as [[_ ->]|[(_ & _ & ->)|(_ & _ & s2 & Hext & ->)]];
    cbn [game_of snake].
  - split; [exact Hhead1|]. split; [exact Hshift|]. lia.
  - split; [exact Hhead1|]. split; [exact Hshift|]. lia.
  - destruct (Z_lt_le_dec (length s1) INT_MAX) as [Hlt|Hge].
    + destruct (run_extend_snake indeterminate s1 Hwf1 ltac:(lia) Hlt)
        as (s2' & tail & Hext' & Htail & Hnew & Hl2 & _ & _ & Hold).
      rewrite Hext' in Hext. injection Hext as <-.
      split; [rewrite Hold by lia; exact Hhead1|].
      split.
      * intros i Hi. rewrite Hold by lia. apply Hshift, Hi.
      * intros _. rewrite <- Hl1, Hnew, Hold by lia. symmetry. exact Htail.
    + rewrite extend_snake_overflow in Hext; [discriminate|].
      destruct Hwf1 as (Hint & _). unfold in_int in Hint. lia.
Qed.

(** *** Invariants of the states of the loop *)

Lemma segment_start (m r i : Z) :
  0 <= i < 5 ->
  segment (mkSnake [m + 0; m + 1; m + 2; m + 3; m + 4] [r; r; r; r; r]
             INITIAL_SNAKE_LENGTH) i
    = Some (m + i, r).
Proof.
  intros Hi.
  assert (i = 0 \/ i = 1 \/ i = 2 \/ i = 3 \/ i = 4) as Hcases by lia.
  destruct Hcases as [->|[->|[->|[->| ->]]]]; reflexivity.
Qed.

Lemma run_check_collision_start uninit start_time g :
  game_start indeterminate max_x max_y uninit start_time = Ok g ->
  tight (snake g) /\
  check_collision (snake g) = Ok (false, snake g) /\
  game_over g = false.
Proof.
  assert (Hmx : in_int max_x) by (unfold in_int, INT_MIN; lia).
  unfold game_start. rewrite run_init_snake by exact Hmx.
  intros [= <-]. cbn [snake game_over replicate].
  split; [split; reflexivity|]. split; [|reflexivity].
  match goal with |- check_collision ?s = _ => set (s0 := s) end.
  assert (Hwf : well_formed s0).
  { unfold well_formed, in_int, INT_MIN, INT_MAX, s0, INITIAL_SNAKE_LENGTH.
    cbn [x y length List.length]. lia. }
  destruct (run_check_collision s0 Hwf) as ([|] & Hcheck & Hb); [|exact Hcheck].
  exfalso. destruct Hb as [Hb _].
  destruct (Hb eq_refl) as (i & Hi & p & H0 & Hp).
  unfold s0, INITIAL_SNAKE_LENGTH in Hi. cbn [length] in Hi.
  unfold s0 in H0, Hp.
  rewrite segment_start in H0, Hp by lia.
  assert (max_x ÷ 2 + 0 = max_x ÷ 2 + i) by congruence. lia.
Qed.

Lemma reachable_game_over (f : flow) :
  reachable indeterminate max_x max_y f ->
  check_collision (snake (game_of f))
    = Ok (game_over (game_of f), snake (game_of f)).
Proof.
  intros Hreach.
  pose proof (reachable_length indeterminate max_x max_y f Hreach) as Hfive.
  induction Hreach as [uninit start_time g Hstart | g inp f Hreach IH Hbody].
  - cbn [game_of].
    apply run_check_collision_start in Hstart as (_ & Hcheck & ->).
    exact Hcheck.
  - pose proof (reachable_length indeterminate max_x max_y _ Hreach) as Hlen.
    specialize (IH Hlen). cbn [game_of] in IH, Hlen.
    pose proof (reachable_sound indeterminate max_x max_y screen_x screen_y
                  _ Hreach) as Hsound.
    cbn [game_of] in Hsound.
    destruct (Z.eq_dec (quit_key inp) char_q) as [Hq|Hq].
    { unfold loop_body in Hbody. rewrite Hq, Z.eqb_refl in Hbody.
      injection Hbody as <-. exact IH. }
    destruct (loop_body_sound_inv g inp f Hsound Hbody Hq)
      as (h & s1 & _ & Hwf1 & Hl1 & _ & _ & _ & _ & Hrest).
    destruct Hrest as [[Hc ->]|[(Hc & _ & ->)|(Hc & _ & s2 & Hext & ->)]];
      cbn [game_of snake game_over]; try exact Hc.
    unfold INITIAL_SNAKE_LENGTH in Hlen.
    destruct (Z_lt_le_dec (length s1) INT_MAX) as [Hlt|Hge].
    + destruct (run_check_collision_extended indeterminate s1 Hwf1
                  ltac:(lia) Hlt) as (s2' & b & Hext' & Hb & Hb').
      rewrite Hext' in Hext. injection Hext as <-.
      rewrite Hc in Hb. injection Hb as <-.
      rewrite Hb'. destruct (Z.eqb_spec (length s1) 1); [lia | reflexivity].
    + rewrite extend_snake_overflow in Hext; [discriminate|].
      destruct Hwf1 as (Hint & _). unfold in_int in Hint. lia.
Qed.

(** The state a run ends in is a state of the loop. *)
Lemma run_reachable inputs : forall g g',
  reachable indeterminate max_x max_y (Continue g) ->
  run indeterminate max_x max_y inputs g = Ok g' ->
  exists f, reachable indeterminate max_x max_y f /\ game_of f = g'.
Proof.
  induction inputs as [|inp rest IH]; intros g g' Hreach Hrun; cbn [run] in Hrun.
  - injection Hrun as <-. exists (Continue g). auto.
  - destruct (game_over g); [injection Hrun as <-; exists (Continue g); auto|].
    destruct (loop_body indeterminate max_x max_y g inp) as [[g1|g1]|u] eqn:Hbody;
      [| |discriminate].
    + apply (IH g1); [|exact Hrun].
      exact (reach_iteration _ _ _ g inp _ Hreach Hbody).
    + injection Hrun as <-. exists (Break g1). split; [|reflexivity].
      exact (reach_iteration _ _ _ g inp _ Hreach Hbody).
Qed.

Lemma main_reachable uninit start_time inputs g :
  main indeterminate max_x max_y uninit start_time inputs = Ok g ->
  exists f, reachable indeterminate max_x max_y f /\ game_of f = g.
Proof.
  unfold main.
  destruct (game_start indeterminate max_x max_y uninit start_time)
    as [g0|u] eqn:Hstart; [|discriminate].
  apply run_reachable. exact (reach_start _ _ _ uninit start_time g0 Hstart).
Qed.

(** X11. The [game_over] flag tells the truth: in every state of the loop,
    and so in the state [main] ends in, [check_collision] on the snake
    returns the value of [game_over]; the flag is set exactly in the states
    whose head lies on the body, "GAME OVER!" is printed for those alone,
    and the growth of the snake never produces a collision by itself. *)
Theorem game_over_iff_collision :
  (forall f,
     reachable indeterminate max_x max_y f ->
     check_collision (snake (game_of f))
       = Ok (game_over (game_of f), snake (game_of f))) /\
  (forall uninit start_time inputs g,
     main indeterminate max_x max_y uninit start_time inputs = Ok g ->
     check_collision (snake g) = Ok (game_over g, snake g)).
Proof.
  split; [exact reachable_game_over|].
  intros uninit start_time inputs g (f & Hf & <-)%main_reachable.
  apply reachable_game_over, Hf.
Qed.

(** X12. No cell to spare: in every state of the loop each of the two
    arrays holds exactly [length] cells, from the [malloc] of
    [INITIAL_SNAKE_LENGTH] cells on and through every [realloc]. *)
Theorem allocation_is_tight (f : flow) :
  reachable indeterminate max_x max_y f -> tight (snake (game_of f)).
Proof.
  induction 1 as [uninit start_time g Hstart | g inp f Hreach IH Hbody].
  - apply run_check_collision_start in Hstart as (Htight & _). exact Htight.
  - pose proof (reachable_sound indeterminate max_x max_y screen_x screen_y
                  _ Hreach) as Hsound.
    cbn [game_of] in Hsound, IH. pose proof Hsound as (_ & Hlen & _).
    destruct (Z.eq_dec (quit_key inp) char_q) as [Hq|Hq].
    { unfold loop_body in Hbody. rewrite Hq, Z.eqb_refl in Hbody.
      injection Hbody as <-. exact IH. }
    destruct (loop_body_sound_inv g inp f Hsound Hbody Hq)
      as (h & s1 & _ & Hwf1 & Hl1 & Lx & Ly & _ & _ & Hrest).
    assert (Htight1 : tight s1).
    { destruct IH as [Tx Ty]. unfold tight. rewrite Lx, Ly, Hl1. auto. }
    destruct Hrest as [[_ ->]|[(_ & _ & ->)|(_ & _ & s2 & Hext & ->)]];
      cbn [game_of snake]; try exact Htight1.
    destruct (Z_lt_le_dec (length s1) INT_MAX) as [Hlt|Hge].
    + destruct (run_extend_snake indeterminate s1 Hwf1 ltac:(lia) Hlt)
        as (s2' & tail & Hext' & _ & _ & Hl2 & Lx2 & Ly2 & _).
      rewrite Hext' in Hext. injection Hext as <-.
      unfold tight. lia.
    + rewrite extend_snake_overflow in Hext; [discriminate|].
      destruct Hwf1 as (Hint & _). unfold in_int in Hint. lia.
Qed.

End FurtherLoop.

(** ** The snake and the border *)

Lemma half_bounds v : 0 <= v -> 2 * (v ÷ 2) <= v <= 2 * (v ÷ 2) + 1.
Proof.
  intros Hv. pose proof (Z.quot_rem' v 2) as Hq.
  pose proof (Z.rem_bound_pos v 2 Hv ltac:(lia)). lia.
Qed.

Section Border.

Context `{curses : Curses}.
Variable indeterminate : Z.
Variables max_x max_y : Z.
Hypothesis screen_x : 0 <= max_x <= INT_MAX.
Hypothesis screen_y : 0 <= max_y <= INT_MAX.

Lemma start_inside_iff uninit start_time g :
  game_start indeterminate max_x max_y uninit start_time = Ok g ->
  body_inside max_x max_y (snake g) <-> 11 <= max_x /\ 3 <= max_y.
Proof.
  assert (Hmx : in_int max_x) by (unfold in_int, INT_MIN; lia).
  unfold game_start. rewrite run_init_snake by exact Hmx.
  intros [= <-]. cbn [snake replicate].
  pose proof (half_bounds max_x ltac:(lia)) as Bx.
  pose proof (half_bounds max_y ltac:(lia)) as By.
  unfold body_inside, inside. cbn [length]. split.
  - intros Hin.
    destruct (Hin 4 ltac:(unfold INITIAL_SNAKE_LENGTH; lia)) as (p & Hp & Hp4).
    rewrite segment_start in Hp by lia. injection Hp as <-.
    cbn [fst snd] in Hp4. lia.
  - intros [Hx Hy] i Hi. unfold INITIAL_SNAKE_LENGTH in Hi.
    exists (max_x ÷ 2 + i, max_y ÷ 2).
    split; [apply segment_start; lia|]. cbn [fst snd]. lia.
Qed.

(** X14. Where the snake starts, against the border.  The five segments
    laid out at the start lie strictly inside the border exactly when the
    terminal has at least 11 columns and 3 rows; on a smaller one the snake
    starts with a segment on the border's cells or beyond them. *)
Theorem start_inside_border_iff (uninit : Snake) (start_time : Z) :
  exists g,
    game_start indeterminate max_x max_y uninit start_time = Ok g /\
    (body_inside max_x max_y (snake g) <-> 11 <= max_x /\ 3 <= max_y) /\
    (max_x <= 10 ->
     exists col row, segment (snake g) 4 = Some (col, row) /\ max_x - 1 <= col).
Proof.
  destruct (game_start_defined indeterminate max_x max_y screen_x screen_y
              uninit start_time) as (g & Hstart & _).
  exists g. split; [exact Hstart|].
  split; [exact (start_inside_iff uninit start_time g Hstart)|].
  intros Hsmall.
  assert (Hmx : in_int max_x) by (unfold in_int, INT_MIN; lia).
  unfold game_start in Hstart. rewrite run_init_snake in Hstart by exact Hmx.
  injection Hstart as <-. cbn [snake replicate].
  exists (max_x ÷ 2 + 4), (max_y ÷ 2).
  split; [apply segment_start; lia|].
  pose proof (half_bounds max_x ltac:(lia)). lia.
Qed.

(** X13. The snake stays off the border.  On a terminal of at least 11
    columns and 3 rows every segment of the snake, in every state of the
    loop, lies strictly inside the border: columns [1..max_x-2], rows
    [1..max_y-2]. *)
Theorem snake_stays_inside (f : flow) :
  11 <= max_x -> 3 <= max_y ->
  reachable indeterminate max_x max_y f ->
  body_inside max_x max_y (snake (game_of f)).
Proof.
  intros Hx Hy.
  induction 1 as [uninit start_time g Hstart | g inp f Hreach IH Hbody].
  - cbn [game_of]. apply (start_inside_iff uninit start_time g Hstart). auto.
  - pose proof (reachable_sound indeterminate max_x max_y screen_x screen_y
                  _ Hreach) as Hsound.
    cbn [game_of] in Hsound, IH. pose proof Hsound as (_ & Hlen & _).
    destruct (Z.eq_dec (quit_key inp) char_q) as [Hq|Hq].
    { unfold loop_body in Hbody. rewrite Hq, Z.eqb_refl in Hbody.
      injection Hbody as <-. exact IH. }
    destruct (loop_body_sound_inv indeterminate max_x max_y screen_x screen_y
                g inp f Hsound Hbody Hq)
      as (h & s1 & _ & Hwf1 & Hl1 & _ & _ & Hhead1 & Hshift & Hrest).
    assert (Hin1 : body_inside max_x max_y s1).
    { intros i Hi. destruct (Z.eq_dec i 0) as [->|Hne].
      - eexists. split; [exact Hhead1|]. unfold inside. cbn [fst snd].
        split; apply wrap_coordinate_interior; lia.
      - rewrite Hshift by lia. apply IH. lia. }
    destruct Hrest as [[_ ->]|[(_ & _ & ->)|(_ & _ & s2 & Hext & ->)]];
      cbn [game_of snake]; try exact Hin1.
    destruct (Z_lt_le_dec (length s1) INT_MAX) as [Hlt|Hge].
    + destruct (run_extend_snake indeterminate s1 Hwf1 ltac:(lia) Hlt)
        as (s2' & tail & Hext' & Htail & Hnew & Hl2 & _ & _ & Hold).
      rewrite Hext' in Hext. injection Hext as <-.
      intros i Hi. destruct (Z.eq_dec i (length s1)) as [->|Hne].
      * destruct (Hin1 (length s1 - 1) ltac:(lia)) as (p & Hp & Hpin).
        exists p. split; [congruence | exact Hpin].
      * rewrite Hold by lia. apply Hin1. lia.
    + rewrite extend_snake_overflow in Hext; [discriminate|].
      destruct Hwf1 as (Hint & _). unfold in_int in Hint. lia.
Qed.

End Border.

(** ** What the run does not depend on *)


Section Independence.

Context `{curses : Curses}.
Variables max_x max_y : Z.
Hypothesis screen_x : 0 <= max_x <= INT_MAX.
Hypothesis screen_y : 0 <= max_y <= INT_MAX.




End Independence.

Section QuitKey.

Context `{curses : Curses}.
Variable indeterminate : Z.
Variables max_x max_y : Z.

(** X17. A key read by the [getch] at the top of the loop is tested against
    'q' and then dropped: two runs whose inputs differ only in those keys,
    'q' falling on the same iterations, end in the same state, so that an
    arrow key read there never turns the snake. *)
Theorem key_at_quit_test_is_dropped (inputs inputs' : list Input) (g : Game) :
  Forall2 same_but_quit_keys inputs inputs' ->
  run indeterminate max_x max_y inputs g
    = run indeterminate max_x max_y inputs' g.
Proof.
  intros Hsame. revert g.
  induction Hsame as [|inp inp' rest rest' (Ht & Hk & Hq) _ IH]; intros g;
    [reflexivity|].
  cbn [run]. destruct (game_over g); [reflexivity|].
  assert (Hbody : loop_body indeterminate max_x max_y g inp
                  = loop_body indeterminate max_x max_y g inp').
  { unfold loop_body. rewrite Ht, Hk.
    destruct (Z.eqb_spec (quit_key inp) char_q) as [H|H];
      destruct (Z.eqb_spec (quit_key inp') char_q) as [H'|H'];
      try reflexivity; tauto. }
  rewrite Hbody.
  destruct (loop_body indeterminate max_x max_y g inp') as [[g'|g']|u];
    try reflexivity.
  apply IH.
Qed.

End QuitKey.

(** ** What is printed: the border and the two messages *)

Lemma run_for_up_calls (f : Z -> list Print) (k : nat)
    (body : Z -> M (list Print)) :
  (forall i s, body i s = Ok (f i, s)) ->
  (forall i, List.length (f i) = k) ->
  forall n i s,
    exists calls,
      for_up_calls n i body s = Ok (calls, s) /\
      List.length calls = (k * n)%nat /\
      forall c, c ∈ calls <-> exists j, i <= j < i + Z.of_nat n /\ c ∈ f j.
Proof.
  intros Hbody Hk. induction n as [|n IH]; intros i s.
  - exists []. split; [reflexivity|].
    split; [rewrite Nat.mul_0_r; reflexivity|].
    intros c. split; [intros H%elem_of_nil; contradiction|].
    intros (j & Hj & _). lia.
  - destruct (IH (i + 1) s) as (rest & Hrest & Hlen & Hin).
    exists (f i ++ rest). split.
    { cbn [for_up_calls].
      erewrite run_bind by apply Hbody.
      erewrite run_bind by exact Hrest. reflexivity. }
    split; [rewrite length_app, Hk, Hlen; lia|].
    intros c. rewrite elem_of_app, Hin. split.
    + intros [Hc|(j & Hj & Hc)]; [exists i | exists j]; (split; [lia | exact Hc]).
    + intros (j & Hj & Hc).
      destruct (Z.eq_dec j i) as [->|Hne]; [left; exact Hc|].
      right. exists j. split; [lia | exact Hc].
Qed.

(** X18. [draw_border] draws the border and nothing else: on a window of
    at least one row and one column it makes [2*max_x + 2*max_y] calls of
    [mvprintw], each with the text "#", and a cell is written by one of
    them exactly when it is a cell of the window's first or last row or
    first or last column, so that no call falls outside of the window. *)
Theorem draw_border_draws_the_border (max_x max_y : Z) (s : Snake) :
  1 <= max_x <= INT_MAX -> 1 <= max_y <= INT_MAX ->
  exists calls,
    draw_border_calls max_x max_y s = Ok (calls, s) /\
    Z.of_nat (List.length calls) = 2 * max_x + 2 * max_y /\
    (forall c, c ∈ calls -> print_text c = "#"%string) /\
    (forall r k,
       (exists c, c ∈ calls /\ print_row c = r /\ print_col c = k)
       <-> on_border max_x max_y r k).
Proof.
  intros Hx Hy.
  assert (Ix : in_int (max_x - 1)) by (unfold in_int, INT_MIN in *; lia).
  assert (Iy : in_int (max_y - 1)) by (unfold in_int, INT_MIN in *; lia).
  destruct (run_for_up_calls
              (fun i => [mkPrint 0 i "#"; mkPrint (max_y - 1) i "#"]) 2
              (border_rows max_y)) with (n := Z.to_nat max_x) (i := 0) (s := s)
    as (rows & Hrows & Lrows & Inrows).
  { intros i s'. unfold border_rows, int_sub.
    erewrite run_bind by (apply run_checked; exact Iy). reflexivity. }
  { reflexivity. }
  destruct (run_for_up_calls
              (fun i => [mkPrint i 0 "#"; mkPrint i (max_x - 1) "#"]) 2
              (border_columns max_x)) with (n := Z.to_nat max_y) (i := 0) (s := s)
    as (cols & Hcols & Lcols & Incols).
  { intros i s'. unfold border_columns, int_sub.
    erewrite run_bind by (apply run_checked; exact Ix). reflexivity. }
  { reflexivity. }
  exists (rows ++ cols). split.
  { unfold draw_border_calls.
    erewrite run_bind by exact Hrows.
    erewrite run_bind by exact Hcols. reflexivity. }
  split; [rewrite length_app; lia|].
  assert (Hin : forall c, c ∈ rows ++ cols <->
    (exists j, 0 <= j < max_x /\
               (c = mkPrint 0 j "#" \/ c = mkPrint (max_y - 1) j "#")) \/
    (exists j, 0 <= j < max_y /\
               (c = mkPrint j 0 "#" \/ c = mkPrint j (max_x - 1) "#"))).
  { intros c. rewrite elem_of_app, Inrows, Incols.
    setoid_rewrite elem_of_cons. setoid_rewrite elem_of_cons.
    setoid_rewrite elem_of_nil. rewrite !Z2Nat.id by lia.
    split; (intros [(j & Hj & H)|(j & Hj & H)]; [left|right]; exists j;
            (split; [lia | tauto])). }
  split.
  - intros c [(j & _ & [-> | ->])|(j & _ & [-> | ->])]%Hin; reflexivity.
  - intros r k. unfold on_border. split.
    + intros (c & Hc & <- & <-).
      apply Hin in Hc as [(j & Hj & [-> | ->])|(j & Hj & [-> | ->])];
        cbn [print_row print_col]; lia.
    + intros (Hr & Hk & Hedge).
      destruct Hedge as [->|[->|[->| ->]]].
      * exists (mkPrint 0 k "#"). split; [|auto].
        apply Hin. left. exists k. auto.
      * exists (mkPrint (max_y - 1) k "#"). split; [|auto].
        apply Hin. left. exists k. auto.
      * exists (mkPrint r 0 "#"). split; [|auto].
        apply Hin. right. exists r. auto.
      * exists (mkPrint r (max_x - 1) "#"). split; [|auto].
        apply Hin. right. exists r. auto.
Qed.

Lemma centered_column (max_x width : Z) :
  0 <= max_x ->
  let col := (max_x - width) ÷ 2 in
  ((0 <= col /\ 0 <= max_x - (col + width)) <-> width <= max_x) /\
  (width <= max_x -> 0 <= (max_x - (col + width)) - col <= 1).
Proof.
  intros Hx col. subst col.
  pose proof (Z.quot_rem' (max_x - width) 2) as Hq.
  destruct (Z_lt_le_dec (max_x - width) 0) as [Hneg|Hpos].
  - pose proof (Z.rem_nonpos (max_x - width) 2 ltac:(lia) ltac:(lia)).
    assert (-2 < Z.rem (max_x - width) 2).
    { rewrite <- (Z.opp_involutive (max_x - width)), Z.rem_opp_l by lia.
      pose proof (Z.rem_bound_pos (- (max_x - width)) 2 ltac:(lia) ltac:(lia)).
      lia. }
    lia.
  - pose proof (Z.rem_bound_pos (max_x - width) 2 ltac:(lia) ltac:(lia)). lia.
Qed.

(** X19. The two messages.  The splash text "Snake Game!" is printed on
    row [max_y/3] and "GAME OVER!" on row [max_y/2], the latter only when
    [game_over] is set; each fits on its row exactly when the terminal has
    as many columns as the text has characters (11 and 10), and is then
    centered, the right margin being the left one or one column more; on a
    narrower terminal the text starts at column 0 or left of it and runs
    past the last column. *)
Theorem messages_are_centered (max_x max_y : Z) (g : Game) (s : Snake) :
  0 <= max_x <= INT_MAX ->
  (exists splash,
     show_splash_screen max_x max_y s = Ok (splash, s) /\
     print_row splash = max_y ÷ 3 /\
     print_text splash = "Snake Game!"%string /\
     ((0 <= left_margin splash /\ 0 <= right_margin max_x splash)
        <-> 11 <= max_x) /\
     (11 <= max_x ->
        0 <= right_margin max_x splash - left_margin splash <= 1)) /\
  (game_over g = false -> game_over_message max_x max_y g s = Ok (None, s)) /\
  (game_over g = true ->
   exists over,
     game_over_message max_x max_y g s = Ok (Some over, s) /\
     print_row over = max_y ÷ 2 /\
     print_text over = "GAME OVER!"%string /\
     ((0 <= left_margin over /\ 0 <= right_margin max_x over)
        <-> 10 <= max_x) /\
     (10 <= max_x ->
        0 <= right_margin max_x over - left_margin over <= 1)).
Proof.
  intros Hx.
  assert (I11 : in_int (max_x - 11)) by (unfold in_int, INT_MIN in *; lia).
  assert (I10 : in_int (max_x - 10)) by (unfold in_int, INT_MIN in *; lia).
  destruct (centered_column max_x 11 ltac:(lia)) as [F11 C11].
  destruct (centered_column max_x 10 ltac:(lia)) as [F10 C10].
  split; [|split].
  - eexists. split.
    { unfold show_splash_screen, int_sub.
      erewrite run_bind by (apply run_checked; exact I11). reflexivity. }
    unfold left_margin, right_margin. cbn [print_row print_col print_text].
    change (Z.of_nat (String.length "Snake Game!")) with 11.
    auto.
  - intros Hover. unfold game_over_message. rewrite Hover. reflexivity.
  - intros Hover. eexists. split.
    { unfold game_over_message, int_sub. rewrite Hover.
      erewrite run_bind by (apply run_checked; exact I10). reflexivity. }
    unfold left_margin, right_margin. cbn [print_row print_col print_text].
    change (Z.of_nat (String.length "GAME OVER!")) with 10.
    auto.
Qed.

(** ** No undefined behaviour *)

Section Safety.

Context `{curses : Curses}.
Variable indeterminate : Z.
Variables max_x max_y : Z.
Hypothesis screen_x : 0 <= max_x <= INT_MAX.
Hypothesis screen_y : 0 <= max_y <= INT_MAX.



End Safety.

(** ** Worked instances of the further properties *)

Lemma update_snake_arrays_witness :
  exists s',
    update_snake DIR_LEFT (mkSnake [5; 6; 7; 9] [3; 3; 3; 9] 3) = Ok (tt, s') /\
    take 3 (x s') = 4 :: take 2 [5; 6; 7; 9] /\
    drop 3 (x s') = drop 3 [5; 6; 7; 9] /\
    length s' = 3.
Proof.
  destruct (update_snake_arrays (mkSnake [5; 6; 7; 9] [3; 3; 3; 9] 3)
              DIR_LEFT (5, 3))
    as (s' & Hrun & Tx & _ & Dx & _ & _ & _ & Hl).
  - unfold well_formed, in_int, INT_MIN, INT_MAX. simpl. lia.
  - simpl. lia.
  - reflexivity.
  - unfold can_move, in_int, INT_MIN, INT_MAX. simpl. lia.
  - exists s'. split; [exact Hrun|]. split; [exact Tx|].
    split; [exact Dx | exact Hl].
Defined.

Lemma update_snake_defined_iff_witness :
  update_snake DIR_UP (mkSnake [5; 6] [INT_MIN; 3] 2)
    = Undefined SignedOverflow.
Proof.
  apply (update_snake_defined_iff (mkSnake [5; 6] [INT_MIN; 3] 2) DIR_UP
           (5, INT_MIN)).
  - unfold well_formed, in_int, INT_MIN, INT_MAX. simpl. lia.
  - simpl. lia.
  - reflexivity.
  - unfold in_int, INT_MIN, INT_MAX. simpl. lia.
  - unfold in_int, INT_MIN, INT_MAX. simpl. lia.
  - reflexivity.
Defined.

Lemma extend_snake_defined_iff_witness :
  extend_snake 0 (mkSnake [] [] 0) = Undefined OutOfBounds.
Proof.
  apply (extend_snake_defined_iff 0 (mkSnake [] [] 0)).
  - unfold well_formed, in_int, INT_MIN, INT_MAX. simpl. lia.
  - unfold INT_MIN. simpl. lia.
Defined.

Lemma extend_snake_fresh_memory_witness :
  extend_snake 0 (mkSnake [8; 9; 10; 77] [5; 5; 5; 77] 3)
    = extend_snake 42 (mkSnake [8; 9; 10; 77] [5; 5; 5; 77] 3).
Proof.
  apply (extend_snake_fresh_memory 0 42 (mkSnake [8; 9; 10; 77] [5; 5; 5; 77] 3)).
  unfold well_formed, in_int, INT_MIN, INT_MAX. simpl. lia.
Defined.

Lemma extend_then_update_keeps_tail_witness :
  exists s2,
    (extend_snake 0;; update_snake DIR_LEFT) (mkSnake [5; 6; 7] [3; 3; 3] 3)
      = Ok (tt, s2) /\
    length s2 = 3 + 1 /\
    segment s2 3 = Some (7, 3).
Proof.
  destruct (extend_then_update_keeps_tail 0 (mkSnake [5; 6; 7] [3; 3; 3] 3)
              DIR_LEFT (5, 3))
    as (s2 & Hrun & Hl & _ & Hbody & _).
  - unfold well_formed, in_int, INT_MIN, INT_MAX. simpl. lia.
  - simpl. lia.
  - unfold INT_MAX. simpl. lia.
  - reflexivity.
  - unfold can_move, in_int, INT_MIN, INT_MAX. simpl. lia.
  - exists s2. split; [exact Hrun|]. split; [exact Hl|].
    apply (Hbody 3). simpl. lia.
Defined.

Lemma check_collision_after_extend_witness :
  exists s' b,
    extend_snake 0 (mkSnake [7] [4] 1) = Ok (tt, s') /\
    check_collision (mkSnake [7] [4] 1) = Ok (b, mkSnake [7] [4] 1) /\
    check_collision s' = Ok (b || true, s').
Proof.
  apply (check_collision_after_extend 0 (mkSnake [7] [4] 1)).
  - unfold well_formed, in_int, INT_MIN, INT_MAX. simpl. lia.
  - simpl. lia.
  - unfold INT_MAX. simpl. lia.
Defined.

Lemma wrap_around_idempotent_witness :
  exists s',
    wrap_around 20 10 (mkSnake [0; 1; 2] [9; 9; 9] 3) = Ok (tt, s') /\
    wrap_around 20 10 s' = Ok (tt, s') /\
    (wrap_around 20 10;; wrap_around 20 10) (mkSnake [0; 1; 2] [9; 9; 9] 3)
      = wrap_around 20 10 (mkSnake [0; 1; 2] [9; 9; 9] 3).
Proof.
  apply (wrap_around_idempotent (mkSnake [0; 1; 2] [9; 9; 9] 3) 20 10 (0, 9)).
  - unfold dimension, in_int, INT_MIN, INT_MAX. lia.
  - unfold dimension, in_int, INT_MIN, INT_MAX. lia.
  - reflexivity.
Defined.

Lemma move_there_and_back_witness :
  exists s',
    (update_snake DIR_LEFT;; wrap_around 20 10;;
     update_snake DIR_RIGHT;; wrap_around 20 10)
      (mkSnake [1; 2; 3] [5; 5; 5] 3) = Ok (tt, s') /\
    segment s' 0 = Some (1, 5) /\
    length s' = 3.
Proof.
  apply (move_there_and_back (mkSnake [1; 2; 3] [5; 5; 5] 3) DIR_LEFT (1, 5)
           20 10).
  - unfold well_formed, in_int, INT_MIN, INT_MAX. simpl. lia.
  - simpl. lia.
  - reflexivity.
  - unfold INT_MAX. lia.
  - unfold INT_MAX. lia.
  - simpl. lia.
  - simpl. lia.
Defined.

Lemma reachable_start_80_24 :
  reachable (H := ncurses) 0 80 24 (Continue start_80_24).
Proof. apply (reach_start 0 80 24 (mkSnake [] [] 0) 1000). reflexivity. Defined.

Lemma loop_body_start_80_24 :
  loop_body (curses := ncurses) 0 80 24 start_80_24 (mkInput (-1) 1005 (-1))
    = Ok (Continue grown_80_24).
Proof. reflexivity. Defined.

Lemma reachable_grown_80_24 :
  reachable (H := ncurses) 0 80 24 (Continue grown_80_24).
Proof.
  exact (reach_iteration 0 80 24 start_80_24 (mkInput (-1) 1005 (-1)) _
           reachable_start_80_24 loop_body_start_80_24).
Defined.

Lemma tick_moves_snake_witness :
  exists h,
    segment (snake start_80_24) 0 = Some h /\
    segment (snake grown_80_24) 0
      = Some (wrap_coordinate 80 (displace DIR_LEFT h).1,
              wrap_coordinate 24 (displace DIR_LEFT h).2) /\
    (forall i, 1 <= i <= 5 - 1 ->
       segment (snake grown_80_24) i = segment (snake start_80_24) (i - 1)) /\
    (6 = 5 + 1 ->
     segment (snake grown_80_24) 5 = segment (snake grown_80_24) (5 - 1)).
Proof.
  apply (tick_moves_snake (curses := ncurses) 0 80 24
           ltac:(unfold INT_MAX; lia) ltac:(unfold INT_MAX; lia)
           start_80_24 (mkInput (-1) 1005 (-1)) (Continue grown_80_24)).
  - exact reachable_start_80_24.
  - unfold char_q. simpl. lia.
  - exact loop_body_start_80_24.
Defined.



Lemma game_over_iff_collision_witness :
  check_collision (snake grown_80_24) = Ok (false, snake grown_80_24).
Proof.
  exact (proj1 (game_over_iff_collision (curses := ncurses) 0 80 24
                  ltac:(unfold INT_MAX; lia) ltac:(unfold INT_MAX; lia))
           (Continue grown_80_24) reachable_grown_80_24).
Defined.

Lemma allocation_is_tight_witness : tight (snake grown_80_24).
Proof.
  exact (allocation_is_tight (curses := ncurses) 0 80 24
           ltac:(unfold INT_MAX; lia) ltac:(unfold INT_MAX; lia)
           (Continue grown_80_24) reachable_grown_80_24).
Defined.

Lemma snake_stays_inside_witness : body_inside 80 24 (snake grown_80_24).
Proof.
  apply (snake_stays_inside (curses := ncurses) 0 80 24
           ltac:(unfold INT_MAX; lia) ltac:(unfold INT_MAX; lia)
           (Continue grown_80_24)).
  - lia.
  - lia.
  - exact reachable_grown_80_24.
Defined.

Lemma start_inside_border_iff_witness :
  exists g,
    game_start 0 10 24 (mkSnake [] [] 0) 1000 = Ok g /\
    (body_inside 10 24 (snake g) <-> 11 <= 10 /\ 3 <= 24) /\
    (10 <= 10 ->
     exists col row, segment (snake g) 4 = Some (col, row) /\ 10 - 1 <= col).
Proof.
  apply (start_inside_border_iff 0 10 24).
  - unfold INT_MAX. lia.
  - unfold INT_MAX. lia.
Defined.


Lemma key_at_quit_test_is_dropped_witness :
  run (curses := ncurses) 0 80 24 [mkInput 259 1000 (-1)] start_80_24
    = run (curses := ncurses) 0 80 24 [mkInput (-1) 1000 (-1)] start_80_24.
Proof.
  apply (key_at_quit_test_is_dropped (curses := ncurses) 0 80 24).
  repeat constructor; unfold char_q; simpl; lia.
Defined.

Lemma draw_border_draws_the_border_witness :
  exists calls,
    draw_border_calls 4 3 (mkSnake [] [] 0) = Ok (calls, mkSnake [] [] 0) /\
    Z.of_nat (List.length calls) = 2 * 4 + 2 * 3 /\
    (forall c, c ∈ calls -> print_text c = "#"%string) /\
    (forall r k,
       (exists c, c ∈ calls /\ print_row c = r /\ print_col c = k)
       <-> on_border 4 3 r k).
Proof.
  apply (draw_border_draws_the_border 4 3 (mkSnake [] [] 0)).
  - unfold INT_MAX. lia.
  - unfold INT_MAX. lia.
Defined.

Lemma messages_are_centered_witness :
  exists splash,
    show_splash_screen 80 24 (mkSnake [] [] 0) = Ok (splash, mkSnake [] [] 0) /\
    print_row splash = 24 ÷ 3 /\
    print_text splash = "Snake Game!"%string /\
    ((0 <= left_margin splash /\ 0 <= right_margin 80 splash) <-> 11 <= 80) /\
    (11 <= 80 -> 0 <= right_margin 80 splash - left_margin splash <= 1).
Proof.
  apply (messages_are_centered 80 24 start_80_24 (mkSnake [] [] 0)).
  unfold INT_MAX. lia.
Defined.

